(** * fix_vite_compat: JSDoc HTML sanitiser

    A shallow embedding of [src/web/assets/fix_vite_compat.py] and the
    properties of its specification.

    The script is two regular-expression substitutions ([re.sub]) applied to
    the text of six files.  The embedding therefore has three layers:

    - a backtracking matcher for the fragment of Python's [re] syntax the
      script uses (literals, [.], [\s], [[^c]], and the quantifiers [*], [+],
      [*?] applied to a single character class), with [re.sub] on top of it;
    - [process_comment] and [fix_jsdoc_html], transcribed from the source;
    - the file loop, as a state-and-exception monad over a model of the disk
      and of the two output streams.

    Text is a list of Unicode code points, as a Python [str] is. *)

From Equations Require Import Equations.
From Stdlib Require Import String Ascii List NArith Arith Lia Bool.
Import ListNotations.
Open Scope N_scope.

(* ===================================================================== *)
(** ** Text *)

Definition text := list N.

(** A string literal of the source, as text (the literals are ASCII). *)
Definition str (s : string) : text := map N_of_ascii (list_ascii_of_string s).

(** Number of bytes of a code point in UTF-8, the encoding the files are
    read and written in. *)
Definition utf8_len (c : N) : nat :=
  if c <? 128 then 1%nat else if c <? 2048 then 2%nat
  else if c <? 65536 then 3%nat else 4%nat.

Definition byte_length (t : text) : nat := list_sum (map utf8_len t).

(** [c in s] for a one-character [c]. *)
Definition contains (c : N) (s : text) : bool := existsb (N.eqb c) s.

(** [s.replace(old, new)] for a one-character [old]: every occurrence is
    replaced, left to right. *)
Definition replace (old : N) (new : text) (s : text) : text :=
  flat_map (fun c => if c =? old then new else [c]) s.

(* ===================================================================== *)
(** ** Regular expressions *)

(** Character classes of the two patterns. *)
Inductive cls :=
| Chr (c : N)      (* a literal character, possibly escaped: [/], [\*], [<] *)
| AnyChr           (* [.] under [re.DOTALL] *)
| Space            (* [\s] *)
| NotChr (c : N).  (* [[^c]] *)

Inductive quant :=
| Once             (* x   *)
| Star             (* x*  greedy *)
| Plus             (* x+  greedy *)
| LazyStar.        (* x*? *)

(** A pattern is a sequence of quantified classes. *)
Definition regex := list (cls * quant).

(** [\s] on [str]: the characters for which [str.isspace] holds. *)
Definition is_space (c : N) : bool :=
  ((9 <=? c) && (c <=? 13)) || ((28 <=? c) && (c <=? 32)) || (c =? 133)
  || (c =? 160) || (c =? 5760) || ((8192 <=? c) && (c <=? 8202))
  || (c =? 8232) || (c =? 8233) || (c =? 8239) || (c =? 8287) || (c =? 12288).

Definition cls_ok (k : cls) (c : N) : bool :=
  match k with
  | Chr d => c =? d
  | AnyChr => true
  | Space => is_space c
  | NotChr d => negb (c =? d)
  end.

(** The matcher is written in continuation-passing style: [rest] matches
    what remains of the pattern and returns the number of characters it
    consumed.  The order in which alternatives are tried is the engine's:
    a greedy quantifier tries to consume first and gives back one character
    at a time, a lazy one tries the rest of the pattern first. *)
Section Quantifiers.
Variable k : cls.
Variable rest : text -> option nat.

Definition once (s : text) : option nat :=
  match s with
  | c :: s' => if cls_ok k c then option_map S (rest s') else None
  | [] => None
  end.

Fixpoint greedy (s : text) : option nat :=
  match s with
  | c :: s' =>
      if cls_ok k c then
        match greedy s' with
        | Some n => Some (S n)
        | None => rest s
        end
      else rest s
  | [] => rest s
  end.

Fixpoint lazy (s : text) : option nat :=
  match rest s with
  | Some n => Some n
  | None =>
      match s with
      | c :: s' => if cls_ok k c then option_map S (lazy s') else None
      | [] => None
      end
  end.
End Quantifiers.

(** [re_match r s]: the length of the match of [r] at the start of [s], as
    [pattern.match] finds it. *)
Fixpoint re_match (r : regex) : text -> option nat :=
  match r with
  | [] => fun _ => Some 0%nat
  | (k, Once) :: r' => once k (re_match r')
  | (k, Star) :: r' => greedy k (re_match r')
  | (k, Plus) :: r' => once k (greedy k (re_match r'))
  | (k, LazyStar) :: r' => lazy k (re_match r')
  end.

(** The pieces [re.sub] cuts a string into: the matches, and the characters
    between them. *)
Inductive piece :=
| Keep (c : N)
| Hit (m : text).

(** Left-to-right scan for non-overlapping matches ([re.finditer]).  Both
    patterns of the script start with a literal, so a match is never empty
    and the engine's special treatment of empty matches does not arise. *)
Equations? re_scan (r : regex) (s : text) : list piece by wf (length s) lt :=
  re_scan r [] := [];
  re_scan r (c :: s') with re_match r (c :: s') := {
    | Some (S n) => Hit (c :: firstn n s') :: re_scan r (skipn n s');
    | _ => Keep c :: re_scan r s' }.
Proof. all: simpl; try lia. rewrite length_skipn. lia. Qed.

Definition render (f : text -> text) (p : piece) : text :=
  match p with
  | Keep c => [c]
  | Hit m => f m
  end.

(** [re.sub(r, f, s)] with a callable [f]; a replacement string [t] without
    backslashes or group references is [fun _ => t]. *)
Definition re_sub (r : regex) (f : text -> text) (s : text) : text :=
  flat_map (render f) (re_scan r s).

(** The matches of a scan, in order. *)
Definition hits (ps : list piece) : list text :=
  flat_map (fun p => match p with Keep _ => [] | Hit m => [m] end) ps.

Definition on_hit (f : text -> text) (p : piece) : piece :=
  match p with
  | Keep c => Keep c
  | Hit m => Hit (f m)
  end.

(* ===================================================================== *)
(** ** The sanitiser *)

(** [r'/\*\*.*?\*/'] with [re.DOTALL]. *)
Definition jsdoc_re : regex :=
  [(Chr 47, Once); (Chr 42, Once); (Chr 42, Once); (AnyChr, LazyStar);
   (Chr 42, Once); (Chr 47, Once)].

(** [r'\*\s*<[^>]+>.*?<\/[^>]+>'] with [re.DOTALL]. *)
Definition html_re : regex :=
  [(Chr 42, Once); (Space, Star); (Chr 60, Once); (NotChr 62, Plus);
   (Chr 62, Once); (AnyChr, LazyStar); (Chr 60, Once); (Chr 47, Once);
   (NotChr 62, Plus); (Chr 62, Once)].

Definition placeholder : text :=
  str "* [HTML example removed for Vite compatibility]".

Definition amp_lt : text := str "&lt;".
Definition amp_gt : text := str "&gt;".

Definition process_comment (comment : text) : text :=
  if contains 60 comment && contains 62 comment then
    let comment := re_sub html_re (fun _ => placeholder) comment in
    replace 62 amp_gt (replace 60 amp_lt comment)
  else comment.

Definition fix_jsdoc_html (content : text) : text :=
  re_sub jsdoc_re process_comment content.

(** The comment blocks of a text: the matches of [jsdoc_re]. *)
Definition blocks (content : text) : list text :=
  hits (re_scan jsdoc_re content).

(* ===================================================================== *)
(** ** Declarative reading of the two patterns *)

(** [Scan P s ps]: [ps] cuts [s], left to right, at the leftmost and then
    shortest prefixes that satisfy [P]. *)
Inductive Scan (P : text -> Prop) : text -> list piece -> Prop :=
| Scan_nil : Scan P [] []
| Scan_hit m s ps :
    P m ->
    (forall m' s', m ++ s = m' ++ s' -> P m' -> (length m <= length m')%nat) ->
    Scan P s ps ->
    Scan P (m ++ s) (Hit m :: ps)
| Scan_keep c s ps :
    (forall m s', c :: s = m ++ s' -> ~ P m) ->
    Scan P s ps ->
    Scan P (c :: s) (Keep c :: ps).

(** A comment block: [/**], any characters, [*/]. *)
Definition Block (m : text) : Prop :=
  exists body, m = str "/**" ++ body ++ str "*/".

(** A tag-pair span as [html_re] reads it: [*], white space, an opening tag
    [<...>] with at least one character, any characters, a closing tag
    [</...>] with at least one character. *)
Definition TagSpan (m : text) : Prop :=
  exists ws t1 mid t2,
    m = [42] ++ ws ++ [60] ++ t1 ++ [62] ++ mid ++ [60; 47] ++ t2 ++ [62]
    /\ forallb is_space ws = true
    /\ t1 <> [] /\ contains 62 t1 = false
    /\ t2 <> [] /\ contains 62 t2 = false.

(** Index of the first [*/] of a text. *)
Fixpoint find_close (s : text) : option nat :=
  match s with
  | [] => None
  | c :: s' =>
      match s' with
      | d :: _ => if (c =? 42) && (d =? 47) then Some 0%nat
                  else option_map S (find_close s')
      | [] => None
      end
  end.

(** Whether a text contains a comment block. *)
Fixpoint has_block (s : text) : bool :=
  match s with
  | [] => false
  | c :: s' =>
      match re_match jsdoc_re s with
      | Some _ => true
      | None => has_block s'
      end
  end.

(** The pieces of a scan with the text of the matches erased. *)
Definition skeleton (ps : list piece) : list piece :=
  map (on_hit (fun _ => [])) ps.

(* ===================================================================== *)
(** ** The specification's reading of the tag-pair pattern *)

(** [*], white space, [<], then any characters up to and including a
    closing tag [</...>]: the wording of the specification, which asks for
    no opening tag. *)
Definition spec_html_re : regex :=
  [(Chr 42, Once); (Space, Star); (Chr 60, Once); (AnyChr, LazyStar);
   (Chr 60, Once); (Chr 47, Once); (NotChr 62, Plus); (Chr 62, Once)].

Definition spec_process_comment (comment : text) : text :=
  if contains 60 comment && contains 62 comment then
    let comment := re_sub spec_html_re (fun _ => placeholder) comment in
    replace 62 amp_gt (replace 60 amp_lt comment)
  else comment.

Definition spec_sanitize (content : text) : text :=
  re_sub jsdoc_re spec_process_comment content.

(* ===================================================================== *)
(** ** The file loop *)

Definition filename := string.

(** The disk is modelled as the script sees it through [open] in text
    mode: a file holds decoded text (the translation of line ends is left
    out), or bytes that do not decode.  Writing to the two output streams is
    taken to succeed. *)

(** The exceptions the body of the [try] can raise. *)
Inductive exn :=
| FileNotFoundError
| PermissionError
| UnicodeDecodeError
| OSError.

(** What a file holds: text, or bytes that are not valid UTF-8. *)
Inductive contents :=
| Decoded (t : text)
| Garbled.

(** A file on disk.  [room] is the size, in bytes, the device lets the file
    grow to: a write of more than [room] bytes stores that many and fails.
    Opening the file for writing empties it, so every write has the whole of
    [room] before it. *)
Record file := mkfile {
  body : contents;
  readable : bool;
  writable : bool;
  room : option nat }.

Definition disk := filename -> option file.

Inductive line :=
| Fixed (f : filename)                    (* stdout: "Fixed <f>" *)
| ErrorFixing (f : filename) (e : exn)    (* stderr: "Error fixing <f>: <e>" *)
| AllProcessed.                           (* stdout: "All files processed!" *)

Inductive event :=
| OpenR (f : filename)
| OpenW (f : filename)
| Wrote (f : filename) (t : text)
| Printed (l : line).

Record world := mkworld {
  files_of : disk;
  trace : list event }.

Inductive result (A : Type) :=
| Ok (a : A)
| Raised (e : exn).
Arguments Ok {A} a.
Arguments Raised {A} e.

Definition io (A : Type) := world -> result A * world.

Definition ret {A} (a : A) : io A := fun w => (Ok a, w).
Definition raise {A} (e : exn) : io A := fun w => (Raised e, w).

Definition bind {A B} (m : io A) (k : A -> io B) : io B :=
  fun w =>
    match m w with
    | (Ok a, w') => k a w'
    | (Raised e, w') => (Raised e, w')
    end.

(** [try: m except Exception as e: h e]. *)
Definition try_except {A} (m : io A) (h : exn -> io A) : io A :=
  fun w =>
    match m w with
    | (Ok a, w') => (Ok a, w')
    | (Raised e, w') => h e w'
    end.

Declare Scope io_scope.
Delimit Scope io_scope with io.
Notation "x <- m ;; k" := (bind m (fun x => k))
  (at level 61, m at next level, right associativity) : io_scope.
Notation "m ;; k" := (bind m (fun _ => k))
  (at level 61, right associativity) : io_scope.
Open Scope io_scope.

Definition emit (e : event) : io unit :=
  fun w => (Ok tt, mkworld (files_of w) (trace w ++ [e])).

Definition update (d : disk) (f : filename) (x : file) : disk :=
  fun g => if String.eqb g f then Some x else d g.

Definition store (f : filename) (x : file) : io unit :=
  fun w => (Ok tt, mkworld (update (files_of w) f x) (trace w)).

Definition lookup (f : filename) : io (option file) :=
  fun w => (Ok (files_of w f), w).

(** [with open(f, 'r', encoding='utf-8') as h: content = h.read()]. *)
Definition read_text (f : filename) : io text :=
  emit (OpenR f) ;;
  x <- lookup f ;;
  match x with
  | None => raise FileNotFoundError
  | Some x =>
      if readable x then
        match body x with
        | Decoded t => ret t
        | Garbled => raise UnicodeDecodeError
        end
      else raise PermissionError
  end.

(** The longest prefix of [t] whose UTF-8 encoding fits in [k] bytes, and
    the number of bytes then left of [k]. *)
Fixpoint fit (k : nat) (t : text) : text * nat :=
  match t with
  | [] => ([], k)
  | c :: t' =>
      if (utf8_len c <=? k)%nat then
        let (p, r) := fit (k - utf8_len c) t' in (c :: p, r)
      else ([], k)
  end.

(** What a file holds after the first [k] bytes of the encoding of a longer
    text [t] were stored: the characters that fit when the cut falls between
    two characters, and bytes that do not decode when it falls inside one. *)
Definition cut (k : nat) (t : text) : contents :=
  let (p, r) := fit k t in
  match r with
  | O => Decoded p
  | S _ => Garbled
  end.

(** [with open(f, 'w', encoding='utf-8') as h: h.write(t)]: opening
    truncates the file, or creates it; the text is written as UTF-8. *)
Definition write_text (f : filename) (t : text) : io unit :=
  emit (OpenW f) ;;
  x <- lookup f ;;
  let x := match x with
           | Some x => x
           | None => mkfile (Decoded []) true true None
           end in
  if writable x then
    store f (mkfile (Decoded []) (readable x) true (room x)) ;;
    emit (Wrote f t) ;;
    match room x with
    | Some k =>
        if (k <? byte_length t)%nat then
          store f (mkfile (cut k t) (readable x) true (Some k)) ;;
          raise OSError
        else store f (mkfile (Decoded t) (readable x) true (Some k))
    | None => store f (mkfile (Decoded t) (readable x) true None)
    end
  else raise PermissionError.

(** The body of the [for] loop. *)
Definition process_file (f : filename) : io unit :=
  try_except
    (content <- read_text f ;;
     let fixed_content := fix_jsdoc_html content in
     write_text f fixed_content ;;
     emit (Printed (Fixed f)))
    (fun e => emit (Printed (ErrorFixing f e))).

Fixpoint for_each (fs : list filename) : io unit :=
  match fs with
  | [] => ret tt
  | f :: fs' => process_file f ;; for_each fs'
  end.

Definition files : list filename :=
  ["background-interaction.js"; "components.js"; "theme-manager.js";
   "theme-toggle.js"; "time-of-day-theme.js"; "particle-generator.js"]%string.

(** The script, for a list of files. *)
Definition run (fs : list filename) : io unit :=
  for_each fs ;; emit (Printed AllProcessed).

Definition main : io unit := run files.

(** Exit status of the interpreter: 0 at the end of the script, 1 on an
    exception nothing caught. *)
Definition exit_code {A} (r : result A) : nat :=
  match r with
  | Ok _ => 0%nat
  | Raised _ => 1%nat
  end.

(** The files a stretch of trace tried to open for reading, and the files
    it reported on, in order. *)
Definition attempts (tr : list event) : list filename :=
  flat_map (fun e => match e with OpenR f => [f] | _ => [] end) tr.

Definition reports (tr : list event) : list filename :=
  flat_map (fun e => match e with
                     | Printed (Fixed f) => [f]
                     | Printed (ErrorFixing f _) => [f]
                     | _ => []
                     end) tr.

(** Whether a stretch of trace touches [f] for writing. *)
Definition writes_to (f : filename) (tr : list event) : bool :=
  existsb (fun e => match e with
                    | OpenW g => String.eqb g f
                    | Wrote g _ => String.eqb g f
                    | _ => false
                    end) tr.

(* ===================================================================== *)
(** ** Notions used in the proofs *)

(** A continuation never reports more characters than it was given. *)
Definition bounded (m : text -> option nat) : Prop :=
  forall s n, m s = Some n -> (n <= length s)%nat.

(** Length of the longest prefix made of characters of a class. *)
Fixpoint run_len (k : cls) (s : text) : nat :=
  match s with
  | c :: s' => if cls_ok k c then S (run_len k s') else 0%nat
  | [] => 0%nat
  end.

(** The language of a pattern: the texts it can match, whatever the order
    in which the engine tries them. *)
Fixpoint lang (r : regex) (m : text) : Prop :=
  match r with
  | [] => m = []
  | (k, Once) :: r' =>
      exists c m', m = c :: m' /\ cls_ok k c = true /\ lang r' m'
  | (k, Plus) :: r' =>
      exists c run m', m = c :: run ++ m' /\ cls_ok k c = true
                       /\ forallb (cls_ok k) run = true /\ lang r' m'
  | (k, _) :: r' =>
      exists run m', m = run ++ m' /\ forallb (cls_ok k) run = true /\ lang r' m'
  end.

(** A match is a word of [L]. *)
Definition sound (rest : text -> option nat) (L : text -> Prop) : Prop :=
  forall s n, rest s = Some n -> L (firstn n s).

(** On a word of [L] followed by anything, [rest] finds a match, and one no
    longer than the word. *)
Definition shortest (rest : text -> option nat) (L : text -> Prop) : Prop :=
  forall m post, L m -> exists n, rest (m ++ post) = Some n /\ (n <= length m)%nat.

(** A match that starts later does not end earlier. *)
Definition monotone (rest : text -> option nat) : Prop :=
  forall pre s a b, rest (pre ++ s) = Some a -> rest s = Some b ->
                    (a <= length pre + b)%nat.

(** The side conditions under which the engine's first match is the
    shortest one: what follows a greedy quantifier cannot start with a
    character of its class, and what follows a lazy one is monotone. *)
Fixpoint tame (r : regex) : Prop :=
  match r with
  | [] => True
  | (k, Once) :: r' => tame r'
  | (k, LazyStar) :: r' => tame r' /\ monotone (re_match r')
  | (k, _) :: r' =>
      tame r' /\ forall m, lang r' m -> exists c m', m = c :: m' /\ cls_ok k c = false
  end.

(** [rest] needs a character [g] to succeed: it fails on text without [g],
    and appending such text changes nothing. *)
Definition needs (g : N) (rest : text -> option nat) : Prop :=
  rest [] = None
  /\ forall x w, contains g w = false -> rest (x ++ w) = rest x.

(** The tails of the two patterns: [\*/] and [<\/[^>]+>]. *)
Definition close_re : regex := [(Chr 42, Once); (Chr 47, Once)].

Definition end_tag_re : regex :=
  [(Chr 60, Once); (Chr 47, Once); (NotChr 62, Plus); (Chr 62, Once)].

Definition starts47 (s : text) : bool :=
  match s with
  | d :: _ => d =? 47
  | [] => false
  end.

(** The placeholder after its [*], and the replacement as a function. *)
Definition placeholder_tl : text :=
  str " [HTML example removed for Vite compatibility]".

Definition put_placeholder (_ : text) : text := placeholder.

(** The two [replace] calls of [process_comment]. *)
Definition escape (s : text) : text := replace 62 amp_gt (replace 60 amp_lt s).

(** Size of a text when a character [c] counts for [mu c]. *)
Definition size (mu : N -> nat) (t : text) : nat := list_sum (map mu t).

(* ===================================================================== *)
(** * Proofs *)

Arguments N.eqb !n !m.

(* ===================================================================== *)
(** ** The matcher: general facts *)

Section MatcherFacts.
Variable k : cls.
Variable rest : text -> option nat.

Hypothesis rest_bounded : bounded rest.

Lemma once_bounded : bounded (once k rest).
Proof.
  intros [|c s] n; simpl; [discriminate|].
  destruct (cls_ok k c); [|discriminate].
  destruct (rest s) as [m|] eqn:E; simpl; [|discriminate].
  intros [= <-]. apply rest_bounded in E. lia.
Qed.

Lemma greedy_bounded : bounded (greedy k rest).
Proof.
  intros s; induction s as [|c s IH]; intros n; simpl.
  - apply rest_bounded.
  - destruct (cls_ok k c).
    + destruct (greedy k rest s) as [m|] eqn:E.
      * intros [= <-]. specialize (IH _ eq_refl). lia.
      * intros H. apply rest_bounded in H. exact H.
    + intros H. apply rest_bounded in H. exact H.
Qed.

Lemma lazy_bounded : bounded (lazy k rest).
Proof.
  intros s; induction s as [|c s IH]; intros n; simpl.
  - destruct (rest []) eqn:E; [|discriminate].
    intros [= <-]. apply rest_bounded in E. exact E.
  - destruct (rest (c :: s)) eqn:E.
    + intros [= <-]. apply rest_bounded in E. exact E.
    + destruct (cls_ok k c); [|discriminate].
      destruct (lazy k rest s) as [m|]; simpl; [|discriminate].
      intros [= <-]. specialize (IH _ eq_refl). lia.
Qed.
End MatcherFacts.

Lemma re_match_bounded r : bounded (re_match r).
Proof.
  induction r as [|[k q] r IH]; simpl.
  - intros s n [= <-]. lia.
  - destruct q.
    + now apply once_bounded.
    + now apply greedy_bounded.
    + now apply once_bounded, greedy_bounded.
    + now apply lazy_bounded.
Qed.

(** Unfolding of the scan. *)
Lemma re_scan_hit r c s n :
  re_match r (c :: s) = Some (S n) ->
  re_scan r (c :: s) = Hit (c :: firstn n s) :: re_scan r (skipn n s).
Proof. intros H. simp re_scan. rewrite H. simpl. reflexivity. Qed.

Lemma re_scan_keep r c s :
  re_match r (c :: s) = None \/ re_match r (c :: s) = Some 0%nat ->
  re_scan r (c :: s) = Keep c :: re_scan r s.
Proof. intros [H|H]; simp re_scan; rewrite H; simpl; reflexivity. Qed.

(** Induction along the scan. *)
Lemma re_scan_ind' r (P : text -> list piece -> Prop) :
  P [] [] ->
  (forall c s n,
      re_match r (c :: s) = Some (S n) -> (n <= length s)%nat ->
      P (skipn n s) (re_scan r (skipn n s)) ->
      P (c :: s) (Hit (c :: firstn n s) :: re_scan r (skipn n s))) ->
  (forall c s,
      re_match r (c :: s) = None \/ re_match r (c :: s) = Some 0%nat ->
      P s (re_scan r s) ->
      P (c :: s) (Keep c :: re_scan r s)) ->
  forall s, P s (re_scan r s).
Proof.
  intros Hnil Hhit Hkeep s.
  remember (length s) as len eqn:El.
  revert s El. induction len as [len IH] using lt_wf_ind. intros s El.
  destruct s as [|c s].
  - simp re_scan. 
  - destruct (re_match r (c :: s)) as [[|n]|] eqn:E.
    + rewrite re_scan_keep by now right. apply Hkeep; [now right|].
      apply (IH (length s)); [simpl in El; lia|reflexivity].
    + rewrite (re_scan_hit _ _ _ _ E).
      assert (Hn : (n <= length s)%nat).
      { apply re_match_bounded in E. simpl in E. lia. }
      apply Hhit; trivial.
      apply (IH (length (skipn n s))); [|reflexivity].
      rewrite length_skipn. simpl in El. lia.
    + rewrite re_scan_keep by now left. apply Hkeep; [now left|].
      apply (IH (length s)); [simpl in El; lia|reflexivity].
Qed.

Lemma run_len_le k s : (run_len k s <= length s)%nat.
Proof. induction s as [|c s IH]; simpl; [lia|]. destruct (cls_ok k c); simpl; lia. Qed.

Lemma run_len_app_le k u v : (run_len k (u ++ v) <= length u + run_len k v)%nat.
Proof.
  induction u as [|c u IH]; simpl; [lia|].
  destruct (cls_ok k c); lia.
Qed.

Lemma run_len_firstn k s : forallb (cls_ok k) (firstn (run_len k s) s) = true.
Proof.
  induction s as [|c s IH]; simpl; trivial.
  destruct (cls_ok k c) eqn:E; simpl; trivial. now rewrite E.
Qed.

(** A run of class characters followed by a character outside the class is
    the longest run. *)
Lemma run_len_exact k run c s :
  forallb (cls_ok k) run = true -> cls_ok k c = false ->
  run_len k (run ++ c :: s) = length run.
Proof.
  intros Hr Hc. induction run as [|d run IH]; simpl in *.
  - now rewrite Hc.
  - apply andb_prop in Hr as [-> Hr]. now rewrite IH.
Qed.

Section Combinators.
Variable k : cls.
Variable rest : text -> option nat.

Lemma once_Some s n :
  once k rest s = Some n ->
  exists c s' m, s = c :: s' /\ cls_ok k c = true /\ rest s' = Some m /\ n = S m.
Proof.
  destruct s as [|c s]; simpl; [discriminate|].
  destruct (cls_ok k c) eqn:E; [|discriminate].
  destruct (rest s) as [m|] eqn:R; simpl; [|discriminate].
  intros [= <-]. now exists c, s, m.
Qed.

Lemma greedy_Some s n :
  greedy k rest s = Some n ->
  exists j m, (j <= length s)%nat /\ forallb (cls_ok k) (firstn j s) = true
              /\ rest (skipn j s) = Some m /\ n = (j + m)%nat.
Proof.
  revert n. induction s as [|c s IH]; intros n; simpl.
  - intros H. exists 0%nat, n. simpl. auto with arith.
  - destruct (cls_ok k c) eqn:E.
    + destruct (greedy k rest s) as [n'|] eqn:G.
      * intros [= <-]. destruct (IH _ eq_refl) as (j & m & Hj & Hall & Hr & ->).
        exists (S j), m. simpl. rewrite E, Hall. repeat split; auto with arith.
      * intros H. exists 0%nat, n. simpl. auto with arith.
    + intros H. exists 0%nat, n. simpl. auto with arith.
Qed.

Lemma lazy_Some s n :
  lazy k rest s = Some n ->
  exists j m, (j <= length s)%nat /\ forallb (cls_ok k) (firstn j s) = true
              /\ rest (skipn j s) = Some m /\ n = (j + m)%nat.
Proof.
  revert n. induction s as [|c s IH]; intros n; simpl.
  - destruct (rest []) eqn:R; [|discriminate]. intros [= <-].
    exists 0%nat, n0. simpl. auto with arith.
  - destruct (rest (c :: s)) eqn:R.
    + intros [= <-]. exists 0%nat, n0. simpl. auto with arith.
    + destruct (cls_ok k c) eqn:E; [|discriminate].
      destruct (lazy k rest s) as [n'|]; simpl; [|discriminate].
      intros [= <-]. destruct (IH _ eq_refl) as (j & m & Hj & Hall & Hr & ->).
      exists (S j), m. simpl. rewrite E, Hall. repeat split; auto with arith.
Qed.

Lemma lazy_now s n : rest s = Some n -> lazy k rest s = Some n.
Proof. intros H. destruct s; simpl; now rewrite H. Qed.

(** When the rest of the pattern cannot start with a character of the
    class, a greedy quantifier has one choice: the longest run. *)
Lemma greedy_excl s :
  (forall c s', cls_ok k c = true -> rest (c :: s') = None) ->
  greedy k rest s
  = option_map (Nat.add (run_len k s)) (rest (skipn (run_len k s) s)).
Proof.
  intros Hx. induction s as [|c s IH]; simpl.
  - now destruct (rest []).
  - destruct (cls_ok k c) eqn:E; simpl.
    + rewrite IH. destruct (rest (skipn (run_len k s) s)); simpl; trivial.
      now apply Hx.
    + now destruct (rest (c :: s)).
Qed.
End Combinators.

Lemma re_match_sound r : sound (re_match r) (lang r).
Proof.
  induction r as [|[k q] r IH]; intros s n; simpl.
  - now intros [= <-].
  - destruct q.
    + intros H. apply once_Some in H as (c & s' & m & -> & Hc & Hr & ->).
      exists c, (firstn m s'). simpl. auto.
    + intros H. apply greedy_Some in H as (j & m & Hj & Hall & Hr & ->).
      exists (firstn j s), (firstn m (skipn j s)). split; [|auto].
      rewrite <- (firstn_skipn j s) at 1. rewrite firstn_app, firstn_firstn.
      rewrite length_firstn.
      replace (Nat.min (j + m) j) with j by lia.
      replace (Nat.min j (length s)) with j by lia.
      now replace (j + m - j)%nat with m by lia.
    + intros H. apply once_Some in H as (c & s' & m' & -> & Hc & Hr & ->).
      apply greedy_Some in Hr as (j & m & Hj & Hall & Hr & ->).
      exists c, (firstn j s'), (firstn m (skipn j s')). split; [|auto].
      simpl. f_equal.
      rewrite <- (firstn_skipn j s') at 1. rewrite firstn_app, firstn_firstn.
      rewrite length_firstn.
      replace (Nat.min (j + m) j) with j by lia.
      replace (Nat.min j (length s')) with j by lia.
      now replace (j + m - j)%nat with m by lia.
    + intros H. apply lazy_Some in H as (j & m & Hj & Hall & Hr & ->).
      exists (firstn j s), (firstn m (skipn j s)). split; [|auto].
      rewrite <- (firstn_skipn j s) at 1. rewrite firstn_app, firstn_firstn.
      rewrite length_firstn.
      replace (Nat.min (j + m) j) with j by lia.
      replace (Nat.min j (length s)) with j by lia.
      now replace (j + m - j)%nat with m by lia.
Qed.

(** *** Shortest match *)

Section Shortest.
Variable k : cls.
Variable rest : text -> option nat.
Variable L : text -> Prop.
Hypothesis rest_shortest : shortest rest L.

Lemma shortest_once :
  shortest (once k rest)
           (fun m => exists c m', m = c :: m' /\ cls_ok k c = true /\ L m').
Proof.
  intros m post (c & m' & -> & Hc & Hm). simpl. rewrite Hc.
  destruct (rest_shortest m' post Hm) as (n & -> & Hn).
  exists (S n). simpl. split; [reflexivity|lia].
Qed.

Lemma shortest_lazy :
  monotone rest ->
  shortest (lazy k rest)
           (fun m => exists run m', m = run ++ m'
                                    /\ forallb (cls_ok k) run = true /\ L m').
Proof.
  intros Hmono m post (run & m' & -> & Hrun & Hm).
  destruct (rest_shortest m' post Hm) as (b & Hb & Hle).
  induction run as [|c run IH]; simpl in *.
  - rewrite (lazy_now _ _ _ _ Hb). eauto.
  - apply andb_prop in Hrun as [Hc Hrun].
    destruct (rest (c :: (run ++ m') ++ post)) as [a|] eqn:R.
    + exists a. split; trivial.
      rewrite <- app_assoc in R.
      specialize (Hmono (c :: run) (m' ++ post) a b R Hb). simpl in Hmono.
      rewrite length_app. lia.
    + rewrite Hc. destruct (IH Hrun) as (n & -> & Hn).
      exists (S n). simpl. split; [reflexivity|lia].
Qed.

Lemma shortest_greedy :
  (forall m, L m -> exists c m', m = c :: m' /\ cls_ok k c = false) ->
  sound rest L ->
  shortest (greedy k rest)
           (fun m => exists run m', m = run ++ m'
                                    /\ forallb (cls_ok k) run = true /\ L m').
Proof.
  intros Hhead Hsound m post (run & m' & -> & Hrun & Hm).
  destruct (rest_shortest m' post Hm) as (b & Hb & Hle).
  destruct (Hhead _ Hm) as (c & m'' & -> & Hc).
  rewrite greedy_excl.
  - rewrite <- app_assoc. simpl.
    rewrite (run_len_exact _ _ _ _ Hrun Hc).
    rewrite skipn_app, skipn_all, Nat.sub_diag. simpl.
    simpl in Hb. rewrite Hb. simpl. exists (length run + b)%nat.
    split; trivial. rewrite length_app. lia.
  - intros d s' Hd. destruct (rest (d :: s')) as [n|] eqn:R; trivial.
    apply Hsound in R. apply Hhead in R as (e & t & He & Hne).
    destruct n; simpl in He; [discriminate|]. injection He as <- _. congruence.
Qed.
End Shortest.

Lemma re_match_shortest r : tame r -> shortest (re_match r) (lang r).
Proof.
  induction r as [|[k q] r IH]; simpl.
  - intros _ m post ->. exists 0%nat. auto.
  - destruct q.
    + intros H. apply shortest_once; auto.
    + intros [H Hx]. apply shortest_greedy; auto using re_match_sound.
    + intros [H Hx] m post (c & run & m' & -> & Hc & Hrun & Hm).
      assert (Hg : shortest (greedy k (re_match r))
               (fun m => exists run m', m = run ++ m'
                                        /\ forallb (cls_ok k) run = true /\ lang r m'))
        by (apply shortest_greedy; auto using re_match_sound).
      apply (shortest_once k _ _ Hg).
      exists c, (run ++ m'). repeat split; trivial. exists run, m'. auto.
    + intros [H Hm]. apply shortest_lazy; auto.
Qed.

(** *** The scan cuts at the leftmost shortest words of the language *)

Lemma Scan_ext (P Q : text -> Prop) s ps :
  (forall m, P m <-> Q m) -> Scan P s ps -> Scan Q s ps.
Proof.
  intros E H. induction H.
  - constructor.
  - constructor; trivial; [now apply E|]. intros m' s' Hs Hq. apply E in Hq. eauto.
  - constructor; trivial. intros m s' Hs Hq. apply E in Hq. eapply H; eauto.
Qed.

Lemma re_scan_Scan r s :
  tame r -> ~ lang r [] -> Scan (lang r) s (re_scan r s).
Proof.
  intros Ht Hne. pose proof (re_match_shortest r Ht) as Hs.
  apply (re_scan_ind' r (fun s ps => Scan (lang r) s ps)); clear s.
  - constructor.
  - intros c s n Hm Hn IH.
    rewrite <- (firstn_skipn n s) at 1.
    change (c :: firstn n s ++ skipn n s) with ((c :: firstn n s) ++ skipn n s).
    constructor; trivial.
    + apply re_match_sound in Hm. exact Hm.
    + intros m' s' E Hl. destruct (Hs m' s' Hl) as (n' & Hn' & Hle).
      rewrite <- E in Hn'. simpl in Hn'. rewrite firstn_skipn in Hn'.
      rewrite Hm in Hn'. injection Hn' as <-. simpl. rewrite length_firstn. lia.
  - intros c s Hm IH. constructor; trivial.
    intros m s' E Hl. destruct (Hs m s' Hl) as (n' & Hn' & Hle).
    rewrite <- E in Hn'. destruct Hm as [Hm|Hm]; rewrite Hm in Hn'; [discriminate|].
    apply re_match_sound in Hm. now apply Hne.
Qed.

(** *** Characters that a match must end with *)

Lemma needs_None g rest w : needs g rest -> contains g w = false -> rest w = None.
Proof. intros [H0 H] Hw. rewrite <- H0. exact (H [] w Hw). Qed.

Section Needs.
Variable g : N.
Variable k : cls.
Variable rest : text -> option nat.
Hypothesis Hrest : needs g rest.

Lemma contains_cons c w : contains g (c :: w) = false -> contains g w = false.
Proof. unfold contains. simpl. intros H. now apply orb_false_elim in H. Qed.

Lemma needs_once : needs g (once k rest).
Proof.
  split; [reflexivity|]. intros [|c x] w Hw; simpl; [|now rewrite (proj2 Hrest)].
  destruct w as [|c w]; simpl; trivial.
  rewrite (needs_None g rest w Hrest (contains_cons _ _ Hw)).
  now destruct (cls_ok k c).
Qed.

Lemma greedy_needs_None w : contains g w = false -> greedy k rest w = None.
Proof.
  induction w as [|c w IH]; intros Hw; simpl; [apply Hrest|].
  rewrite (IH (contains_cons _ _ Hw)), (needs_None g rest _ Hrest Hw).
  now destruct (cls_ok k c).
Qed.

Lemma needs_greedy : needs g (greedy k rest).
Proof.
  split; [apply Hrest|]. intros x w Hw.
  induction x as [|c x IH]; simpl.
  - rewrite (greedy_needs_None w Hw). symmetry. apply Hrest.
  - pose proof (proj2 Hrest (c :: x) w Hw) as E. simpl in E.
    now rewrite IH, E.
Qed.

Lemma lazy_needs_None w : contains g w = false -> lazy k rest w = None.
Proof.
  induction w as [|c w IH]; intros Hw; simpl.
  - now rewrite (proj1 Hrest).
  - rewrite (needs_None g rest _ Hrest Hw), (IH (contains_cons _ _ Hw)).
    now destruct (cls_ok k c).
Qed.

Lemma needs_lazy : needs g (lazy k rest).
Proof.
  split; [simpl; now rewrite (proj1 Hrest)|]. intros x w Hw.
  induction x as [|c x IH].
  - simpl app. rewrite (lazy_needs_None w Hw). simpl. now rewrite (proj1 Hrest).
  - pose proof (proj2 Hrest (c :: x) w Hw) as E. simpl in E.
    simpl. now rewrite IH, E.
Qed.
End Needs.

Lemma needs_last g r : needs g (re_match (r ++ [(Chr g, Once)])).
Proof.
  induction r as [|[k q] r IH]; simpl.
  - split; [reflexivity|]. intros [|c x] w Hw; simpl; trivial.
    destruct w as [|c w]; simpl; trivial.
    unfold contains in Hw. simpl in Hw. apply orb_false_elim in Hw as [Hc _].
    rewrite N.eqb_sym. now rewrite Hc.
  - destruct q.
    + now apply needs_once.
    + now apply needs_greedy.
    + now apply needs_once, needs_greedy.
    + now apply needs_lazy.
Qed.

Lemma re_scan_needs_Keep g r w :
  needs g (re_match r) -> contains g w = false -> re_scan r w = map Keep w.
Proof.
  intros Hr. induction w as [|c w IH]; intros Hw; [now simp re_scan|].
  rewrite re_scan_keep by (left; now apply (needs_None g)).
  simpl. f_equal. apply IH. eapply contains_cons; eauto.
Qed.

(** A tail without [g] is out of reach of the scan. *)
Lemma re_scan_app_needs g r x w :
  needs g (re_match r) -> contains g w = false ->
  re_scan r (x ++ w) = re_scan r x ++ map Keep w.
Proof.
  intros Hr Hw.
  apply (re_scan_ind' r (fun x ps => re_scan r (x ++ w) = ps ++ map Keep w)); clear x.
  - now apply (re_scan_needs_Keep g).
  - intros c s n Hm Hn IH. simpl app.
    rewrite (re_scan_hit r c (s ++ w) n).
    + rewrite firstn_app, skipn_app.
      replace (n - length s)%nat with 0%nat by lia. simpl.
      rewrite app_nil_r. now rewrite IH.
    + change (c :: s ++ w) with ((c :: s) ++ w). now rewrite (proj2 Hr).
  - intros c s Hm IH. simpl app. rewrite re_scan_keep; [now rewrite IH|].
    change (c :: s ++ w) with ((c :: s) ++ w). now rewrite (proj2 Hr).
Qed.

(** *** The two patterns of the script *)

Lemma str_open : str "/**" = [47; 42; 42].
Proof. reflexivity. Qed.

Lemma str_close : str "*/" = [42; 47].
Proof. reflexivity. Qed.

Lemma nchr_ok c : cls_ok (NotChr 62) c = negb (contains 62 [c]).
Proof. unfold contains. simpl. now rewrite orb_false_r, N.eqb_sym. Qed.

Lemma forallb_nchr t : forallb (cls_ok (NotChr 62)) t = negb (contains 62 t).
Proof.
  unfold contains. induction t as [|c t IH]; simpl; trivial.
  rewrite IH, negb_orb. now rewrite (N.eqb_sym 62 c).
Qed.

Lemma forallb_any t : forallb (cls_ok AnyChr) t = true.
Proof. induction t; simpl; trivial. Qed.

Lemma jsdoc_lang m : lang jsdoc_re m <-> Block m.
Proof.
  unfold Block. rewrite str_open, str_close. simpl. split.
  - intros (c1 & m1 & -> & H1 & c2 & m2 & -> & H2 & c3 & m3 & -> & H3
            & body & m4 & -> & _ & c4 & m5 & -> & H4 & c5 & m6 & -> & H5 & ->).
    apply N.eqb_eq in H1, H2, H3, H4, H5. subst. now exists body.
  - intros (body & ->).
    exists 47, (42 :: 42 :: body ++ [42; 47]). repeat split.
    exists 42, (42 :: body ++ [42; 47]). repeat split.
    exists 42, (body ++ [42; 47]). repeat split.
    exists body, [42; 47]. repeat split; [apply forallb_any|].
    exists 42, [47]. repeat split. exists 47, []. repeat split.
Qed.

Lemma html_lang m : lang html_re m <-> TagSpan m.
Proof.
  unfold TagSpan, html_re. cbn [lang]. split.
  - intros (c1 & m1 & -> & H1 & ws & m2 & -> & Hws & c2 & m3 & -> & H2
            & c3 & t1 & m4 & -> & H3 & Ht1 & c4 & m5 & -> & H4
            & mid & m6 & -> & _ & c5 & m7 & -> & H5 & c6 & m8 & -> & H6
            & c7 & t2 & m9 & -> & H7 & Ht2 & c8 & m10 & -> & H8 & ->).
    cbn [cls_ok] in H1, H2, H4, H5, H6, H8.
    apply N.eqb_eq in H1, H2, H4, H5, H6, H8. subst.
    exists ws, (c3 :: t1), mid, (c7 :: t2). simpl.
    repeat split; trivial; try discriminate.
    + change (contains 62 ([c3] ++ t1) = false). unfold contains.
      rewrite existsb_app. fold (contains 62 [c3]). fold (contains 62 t1).
      rewrite nchr_ok in H3. rewrite forallb_nchr in Ht1.
      apply negb_true_iff in H3, Ht1. now rewrite H3, Ht1.
    + change (contains 62 ([c7] ++ t2) = false). unfold contains.
      rewrite existsb_app. fold (contains 62 [c7]). fold (contains 62 t2).
      rewrite nchr_ok in H7. rewrite forallb_nchr in Ht2.
      apply negb_true_iff in H7, Ht2. now rewrite H7, Ht2.
  - intros (ws & t1 & mid & t2 & -> & Hws & Hn1 & Ht1 & Hn2 & Ht2).
    destruct t1 as [|c3 t1]; [contradiction|].
    destruct t2 as [|c7 t2]; [contradiction|].
    unfold contains in Ht1, Ht2. simpl in Ht1, Ht2.
    apply orb_false_elim in Ht1 as [Hc3 Ht1].
    apply orb_false_elim in Ht2 as [Hc7 Ht2].
    rewrite N.eqb_sym in Hc3, Hc7.
    eexists 42, _. split; [reflexivity|]. split; [reflexivity|].
    eexists ws, _. split; [reflexivity|]. split; [assumption|].
    eexists 60, _. split; [reflexivity|]. split; [reflexivity|].
    eexists c3, t1, _. split; [simpl; reflexivity|]. split; [cbn [cls_ok]; now rewrite Hc3|].
    split; [rewrite forallb_nchr; unfold contains; now rewrite Ht1|].
    eexists 62, _. split; [reflexivity|]. split; [reflexivity|].
    eexists mid, _. split; [reflexivity|]. split; [apply forallb_any|].
    eexists 60, _. split; [reflexivity|]. split; [reflexivity|].
    eexists 47, _. split; [reflexivity|]. split; [reflexivity|].
    eexists c7, t2, _. split; [simpl; reflexivity|]. split; [cbn [cls_ok]; now rewrite Hc7|].
    split; [rewrite forallb_nchr; unfold contains; now rewrite Ht2|].
    eexists 62, _. split; [reflexivity|]. split; [reflexivity|]. reflexivity.
Qed.

(** [\s*] is followed by [<] and [[^>]+] by [>]: neither can stop early. *)
Lemma chr_head c k r m :
  cls_ok k c = false ->
  lang ((Chr c, Once) :: r) m -> exists d m', m = d :: m' /\ cls_ok k d = false.
Proof.
  intros Hk (d & m' & -> & Hd & _). apply N.eqb_eq in Hd. subst.
  now exists c, m'.
Qed.

Lemma monotone_const r :
  (forall s a, re_match r s = Some a -> a = length r) -> monotone (re_match r).
Proof. intros H pre s a b Ha Hb. apply H in Ha, Hb. lia. Qed.

Lemma close_re_len s a : re_match close_re s = Some a -> a = 2%nat.
Proof.
  simpl. intros H.
  apply once_Some in H as (c & s1 & m1 & -> & _ & H & ->).
  apply once_Some in H as (d & s2 & m2 & -> & _ & H & ->).
  now injection H as <-.
Qed.

Lemma jsdoc_tame : tame jsdoc_re.
Proof.
  unfold jsdoc_re. cbn [tame]. split; [exact I|].
  intros pre s a b Ha Hb. apply close_re_len in Ha, Hb. lia.
Qed.

Lemma gt_excl c s' :
  cls_ok (NotChr 62) c = true -> re_match [(Chr 62, Once)] (c :: s') = None.
Proof.
  simpl. intros H. apply negb_true_iff in H. now rewrite H.
Qed.

(** A closing tag ends at the first [>] after its first character. *)
Lemma end_tag_len s a :
  re_match end_tag_re s = Some a ->
  exists d y, s = 60 :: 47 :: d :: y /\ a = (4 + run_len (NotChr 62) y)%nat.
Proof.
  simpl. intros H.
  apply once_Some in H as (c1 & s1 & m1 & -> & H1 & H & ->).
  apply once_Some in H as (c2 & s2 & m2 & -> & H2 & H & ->).
  apply once_Some in H as (d & y & m3 & -> & _ & H & ->).
  apply N.eqb_eq in H1, H2. subst.
  rewrite greedy_excl in H by apply gt_excl.
  destruct (once _ _ (skipn _ y)) as [m4|] eqn:E; [|discriminate].
  apply once_Some in E as (c4 & s4 & m5 & _ & _ & [= <-] & ->).
  simpl in H. injection H as <-. exists d, y. split; trivial. lia.
Qed.

Lemma end_tag_monotone : monotone (re_match end_tag_re).
Proof.
  intros pre s a b Ha Hb.
  apply end_tag_len in Ha as (d & y & E & ->).
  apply end_tag_len in Hb as (d' & y' & -> & ->).
  assert (Hy : y = skipn 3 (pre ++ [60; 47; d']) ++ y').
  { change y with (skipn 3 (60 :: 47 :: d :: y)). rewrite <- E.
    change (60 :: 47 :: d' :: y') with ([60; 47; d'] ++ y').
    rewrite app_assoc, skipn_app, length_app. simpl length.
    replace (3 - (length pre + 3))%nat with 0%nat by lia. reflexivity. }
  rewrite Hy. pose proof (run_len_app_le (NotChr 62) (skipn 3 (pre ++ [60; 47; d'])) y') as Hle.
  rewrite length_skipn, length_app in Hle. cbn [length] in Hle. lia.
Qed.

Lemma html_tame : tame html_re.
Proof.
  unfold html_re. cbn [tame].
  split; [split; [split; [split; [exact I|]|]|]|].
  - intros m. apply (chr_head 62 (NotChr 62)). reflexivity.
  - apply end_tag_monotone.
  - intros m. apply (chr_head 62 (NotChr 62)). reflexivity.
  - intros m. apply (chr_head 60 Space). reflexivity.
Qed.

Lemma Block_nonempty : ~ Block [].
Proof. intros (body & H). rewrite str_open in H. discriminate. Qed.

Lemma TagSpan_nonempty : ~ TagSpan [].
Proof. intros (ws & t1 & mid & t2 & H & _). discriminate. Qed.

(** The blocks the sanitiser rewrites are the leftmost shortest
    [/** ... */] spans, and the spans it replaces inside one are the
    leftmost shortest tag pairs. *)
Lemma jsdoc_Scan s : Scan Block s (re_scan jsdoc_re s).
Proof.
  apply (Scan_ext (lang jsdoc_re)); [apply jsdoc_lang|].
  apply re_scan_Scan; [apply jsdoc_tame|].
  rewrite jsdoc_lang. apply Block_nonempty.
Qed.

Lemma html_Scan s : Scan TagSpan s (re_scan html_re s).
Proof.
  apply (Scan_ext (lang html_re)); [apply html_lang|].
  apply re_scan_Scan; [apply html_tame|].
  rewrite html_lang. apply TagSpan_nonempty.
Qed.

Lemma html_needs : needs 62 (re_match html_re).
Proof.
  change html_re with
    ([(Chr 42, Once); (Space, Star); (Chr 60, Once); (NotChr 62, Plus);
      (Chr 62, Once); (AnyChr, LazyStar); (Chr 60, Once); (Chr 47, Once);
      (NotChr 62, Plus)] ++ [(Chr 62, Once)]).
  apply needs_last.
Qed.

(** A tag-pair span starts with [*] and is at least eight characters. *)
Lemma TagSpan_shape m :
  TagSpan m -> exists m', m = 42 :: m' /\ (7 <= length m')%nat.
Proof.
  intros (ws & t1 & mid & t2 & -> & _ & H1 & _ & H2 & _).
  eexists. split; [reflexivity|].
  destruct t1; [contradiction|]. destruct t2; [contradiction|].
  repeat (rewrite length_app || cbn [app length]). lia.
Qed.

Lemma html_match_shape c s n :
  re_match html_re (c :: s) = Some n -> c = 42 /\ (8 <= n)%nat.
Proof.
  intros H. pose proof (re_match_bounded _ _ _ H) as Hb.
  apply re_match_sound, html_lang, TagSpan_shape in H as (m' & E & Hl).
  destruct n; simpl in E; [discriminate|]. injection E as -> <-.
  split; trivial. rewrite length_firstn in Hl. lia.
Qed.

Lemma find_close_cons c s :
  find_close (c :: s)
  = if (c =? 42) && starts47 s then Some 0%nat else option_map S (find_close s).
Proof. destruct s; simpl; [now rewrite andb_false_r|reflexivity]. Qed.

Lemma find_close_cons_None c s :
  find_close (c :: s) = None <->
  find_close s = None /\ (c =? 42) && starts47 s = false.
Proof.
  rewrite find_close_cons. destruct ((c =? 42) && starts47 s).
  - split; [discriminate|]. now intros [_ ?].
  - destruct (find_close s); simpl; split; try discriminate; auto.
    now intros [? _].
Qed.

Lemma find_close_skipn n s : find_close s = None -> find_close (skipn n s) = None.
Proof.
  revert s. induction n as [|n IH]; intros [|c s]; simpl; trivial.
  intros H. apply find_close_cons_None in H as [H _]. now apply IH.
Qed.

Lemma starts47_app a b : starts47 a = true -> starts47 (a ++ b) = true.
Proof. now destruct a. Qed.

Lemma find_close_app_l a b : find_close (a ++ b) = None -> find_close a = None.
Proof.
  induction a as [|c a IH]; simpl app; trivial.
  rewrite !find_close_cons_None. intros [H1 H2]. split; [auto|].
  destruct (c =? 42); trivial. simpl in *.
  destruct (starts47 a) eqn:E; trivial. now rewrite (starts47_app a b E) in H2.
Qed.

Lemma find_close_app_r a b : find_close (a ++ b) = None -> find_close b = None.
Proof.
  induction a as [|c a IH]; simpl app; trivial.
  rewrite find_close_cons_None. intros [H _]. auto.
Qed.

Lemma find_close_found a post : find_close (a ++ 42 :: 47 :: post) <> None.
Proof. intros H. apply find_close_app_r in H. discriminate. Qed.

(** The first [*/] is where the text before it has none. *)
Lemma find_close_app_close body post :
  find_close body = None ->
  find_close (body ++ 42 :: 47 :: post) = Some (length body).
Proof.
  induction body as [|c body IH]; [reflexivity|].
  rewrite find_close_cons_None. intros [H1 H2]. simpl app.
  rewrite find_close_cons, (IH H1).
  destruct body as [|d body]; simpl in *.
  - rewrite andb_false_r. reflexivity.
  - now rewrite H2.
Qed.

Lemma find_close_Some s j :
  find_close s = Some j ->
  exists body post,
    s = body ++ 42 :: 47 :: post /\ length body = j /\ find_close body = None.
Proof.
  revert j. induction s as [|c s IH]; intros j; [discriminate|].
  rewrite find_close_cons. destruct ((c =? 42) && starts47 s) eqn:E.
  - intros [= <-]. apply andb_prop in E as [Ec Es].
    destruct s as [|d s]; [discriminate|]. simpl in Es.
    apply N.eqb_eq in Ec, Es. subst. now exists [], s.
  - destruct (find_close s) as [j'|] eqn:F; [|discriminate].
    intros [= <-]. destruct (IH _ eq_refl) as (body & post & -> & <- & Hb).
    exists (c :: body), post. repeat split.
    apply find_close_cons_None. split; trivial.
    destruct (c =? 42); trivial. simpl in *.
    destruct body as [|d body]; trivial.
Qed.

(** Text without [*] in front of text without [*/]. *)
Lemma find_close_app_plain a b :
  contains 42 a = false -> find_close b = None -> find_close (a ++ b) = None.
Proof.
  unfold contains. induction a as [|c a IH]; simpl; trivial.
  intros H Hb. apply orb_false_elim in H as [Hc Ha].
  change (find_close (c :: a ++ b) = None). rewrite find_close_cons_None.
  split; [auto|]. now rewrite N.eqb_sym, Hc.
Qed.

(** *** Matches of the block pattern *)

Lemma lazy_find_close s :
  lazy AnyChr (re_match close_re) s = option_map (Nat.add 2) (find_close s).
Proof.
  induction s as [|c s IH]; [reflexivity|].
  rewrite find_close_cons. cbn [lazy cls_ok]. rewrite IH.
  unfold close_re. cbn [re_match once cls_ok].
  destruct s as [|d s].
  - simpl. rewrite andb_false_r. now destruct (c =? 42).
  - cbn [starts47 once cls_ok].
    destruct (c =? 42); cbn [andb]; [|now destruct (find_close (d :: s))].
    destruct (d =? 47); cbn [option_map]; [reflexivity|].
    now destruct (find_close (d :: s)).
Qed.

Lemma jsdoc_match_open r :
  re_match jsdoc_re (47 :: 42 :: 42 :: r) = option_map (Nat.add 5) (find_close r).
Proof.
  unfold jsdoc_re. cbn [re_match once cls_ok N.eqb Pos.eqb].
  fold close_re. change (re_match [(Chr 42, Once); (Chr 47, Once)]) with (re_match close_re).
  rewrite lazy_find_close. now destruct (find_close r).
Qed.

Lemma jsdoc_match_head s n :
  re_match jsdoc_re s = Some n -> exists r, s = 47 :: 42 :: 42 :: r.
Proof.
  unfold jsdoc_re. cbn [re_match]. intros H.
  apply once_Some in H as (c1 & s1 & m1 & -> & H1 & H & ->).
  apply once_Some in H as (c2 & s2 & m2 & -> & H2 & H & ->).
  apply once_Some in H as (c3 & s3 & m3 & -> & H3 & H & ->).
  apply N.eqb_eq in H1, H2, H3. subst. now exists s3.
Qed.

(** A match of the block pattern: [/**], a body without [*/], [*/]. *)
Lemma jsdoc_match_inv s n :
  re_match jsdoc_re s = Some n ->
  exists body post,
    s = 47 :: 42 :: 42 :: body ++ 42 :: 47 :: post
    /\ n = (5 + length body)%nat /\ find_close body = None.
Proof.
  intros H. destruct (jsdoc_match_head _ _ H) as (r & ->).
  rewrite jsdoc_match_open in H.
  destruct (find_close r) as [j|] eqn:F; [|discriminate]. injection H as <-.
  apply find_close_Some in F as (body & post & -> & <- & Hb).
  now exists body, post.
Qed.

Lemma jsdoc_match_block body post :
  find_close body = None ->
  re_match jsdoc_re (47 :: 42 :: 42 :: body ++ 42 :: 47 :: post)
  = Some (5 + length body)%nat.
Proof.
  intros H. now rewrite jsdoc_match_open, (find_close_app_close _ _ H).
Qed.

Lemma firstn_exact (a b : text) n : n = length a -> firstn n (a ++ b) = a.
Proof.
  intros ->. rewrite firstn_app, Nat.sub_diag, firstn_all. simpl. apply app_nil_r.
Qed.

Lemma skipn_exact (a b : text) n : n = length a -> skipn n (a ++ b) = b.
Proof.
  intros ->. rewrite skipn_app, Nat.sub_diag, skipn_all. reflexivity.
Qed.

Lemma re_scan_block body post :
  find_close body = None ->
  re_scan jsdoc_re (47 :: 42 :: 42 :: body ++ 42 :: 47 :: post)
  = Hit (47 :: 42 :: 42 :: body ++ [42; 47]) :: re_scan jsdoc_re post.
Proof.
  intros H. rewrite (re_scan_hit _ _ _ _ (jsdoc_match_block body post H)).
  change (42 :: 42 :: body ++ 42 :: 47 :: post)
    with ((42 :: 42 :: body) ++ [42; 47] ++ post).
  rewrite app_assoc.
  rewrite firstn_exact, skipn_exact; trivial;
    rewrite length_app; simpl; lia.
Qed.

Lemma re_scan_hit_inv c s n :
  re_match jsdoc_re (c :: s) = Some (S n) ->
  exists body,
    c :: firstn n s = 47 :: 42 :: 42 :: body ++ [42; 47]
    /\ find_close body = None.
Proof.
  intros H. apply jsdoc_match_inv in H as (body & post & E & Hn & Hb).
  injection E as -> ->. exists body. split; trivial. f_equal.
  change (42 :: 42 :: body ++ 42 :: 47 :: post)
    with ((42 :: 42 :: body) ++ [42; 47] ++ post).
  rewrite app_assoc. rewrite firstn_exact; trivial.
  rewrite length_app. simpl. lia.
Qed.

(** Where no [*/] follows, nothing is a block. *)
Lemma re_scan_no_close s :
  find_close (skipn 3 s) = None -> re_scan jsdoc_re s = map Keep s.
Proof.
  induction s as [|c s IH]; intros H; [now simp re_scan|].
  rewrite re_scan_keep.
  - simpl. f_equal. apply IH.
    replace (skipn 3 s) with (skipn 1 (skipn 3 (c :: s))).
    + now apply find_close_skipn.
    + rewrite skipn_skipn. reflexivity.
  - left. destruct (re_match jsdoc_re (c :: s)) as [n|] eqn:E; trivial.
    apply jsdoc_match_inv in E as (body & post & E & _ & _).
    rewrite E in H. simpl in H. now apply find_close_found in H.
Qed.

Lemma flat_map_Keep f s : flat_map (render f) (map Keep s) = s.
Proof. induction s as [|c s IH]; simpl; [|rewrite IH]; reflexivity. Qed.

(** *** Substitution *)

Lemma re_sub_nil r f : re_sub r f [] = [].
Proof. unfold re_sub. now simp re_scan. Qed.

Lemma re_sub_hit r f c s n :
  re_match r (c :: s) = Some (S n) ->
  re_sub r f (c :: s) = f (c :: firstn n s) ++ re_sub r f (skipn n s).
Proof. intros H. unfold re_sub. now rewrite (re_scan_hit _ _ _ _ H). Qed.

Lemma re_sub_keep r f c s :
  re_match r (c :: s) = None \/ re_match r (c :: s) = Some 0%nat ->
  re_sub r f (c :: s) = c :: re_sub r f s.
Proof. intros H. unfold re_sub. now rewrite (re_scan_keep _ _ _ H). Qed.

Lemma re_sub_app_needs g r f x w :
  needs g (re_match r) -> contains g w = false ->
  re_sub r f (x ++ w) = re_sub r f x ++ w.
Proof.
  intros Hr Hw. unfold re_sub.
  now rewrite (re_scan_app_needs g), flat_map_app, flat_map_Keep.
Qed.

Lemma placeholder_eq : placeholder = 42 :: placeholder_tl.
Proof. reflexivity. Qed.

(** *** Replacing tag pairs keeps the comment delimiters *)

Lemma html_no_match_47 s : re_match html_re (47 :: s) = None.
Proof. reflexivity. Qed.

Lemma html_no_match_star_star s : re_match html_re (42 :: 42 :: s) = None.
Proof. reflexivity. Qed.

Lemma html_sub_inv s :
  hd_error (re_sub html_re put_placeholder s) = hd_error s
  /\ (find_close s = None -> find_close (re_sub html_re put_placeholder s) = None).
Proof.
  unfold re_sub.
  apply (re_scan_ind' html_re (fun s ps =>
           hd_error (flat_map (render put_placeholder) ps) = hd_error s
           /\ (find_close s = None ->
               find_close (flat_map (render put_placeholder) ps) = None))); clear s.
  - auto.
  - intros c s n Hm Hn [_ IH]. apply html_match_shape in Hm as [-> _].
    cbn [flat_map render].
    change (put_placeholder (42 :: firstn n s)) with placeholder.
    rewrite placeholder_eq, <- app_comm_cons. split; trivial.
    intros H. apply find_close_cons_None in H as [H _].
    apply find_close_cons_None. split; [|reflexivity].
    apply find_close_app_plain; [reflexivity|].
    apply IH. now apply find_close_skipn.
  - intros c s _ [Hh IH]. cbn [flat_map render app]. split; trivial.
    rewrite !find_close_cons_None. intros [H1 H2]. split; [auto|].
    destruct (c =? 42); trivial. simpl in *.
    destruct (flat_map _ _) as [|e out]; [reflexivity|].
    destruct s as [|d s]; [discriminate|].
    simpl in Hh. injection Hh as ->. exact H2.
Qed.

(** Inside a block, the substitution leaves [/**] and [*/] in place and
    introduces no [*/]. *)
Lemma html_sub_block body :
  find_close body = None ->
  exists body',
    re_sub html_re put_placeholder (47 :: 42 :: 42 :: body ++ [42; 47])
    = 47 :: 42 :: 42 :: body' ++ [42; 47]
    /\ find_close body' = None.
Proof.
  intros Hb.
  change (47 :: 42 :: 42 :: body ++ [42; 47])
    with ((47 :: 42 :: 42 :: body) ++ [42; 47]).
  rewrite (re_sub_app_needs 62) by (apply html_needs || reflexivity).
  rewrite re_sub_keep by (left; apply html_no_match_47).
  rewrite re_sub_keep by (left; apply html_no_match_star_star).
  destruct (re_match html_re (42 :: body)) as [[|n]|] eqn:E.
  - rewrite re_sub_keep by now right.
    exists (re_sub html_re put_placeholder body). split; trivial.
    now apply html_sub_inv.
  - rewrite (re_sub_hit _ _ _ _ _ E).
    change (put_placeholder (42 :: firstn n body)) with placeholder.
    rewrite placeholder_eq.
    exists (placeholder_tl ++ re_sub html_re put_placeholder (skipn n body)).
    split; trivial.
    apply find_close_app_plain; [reflexivity|].
    apply html_sub_inv. now apply find_close_skipn.
  - rewrite re_sub_keep by now left.
    exists (re_sub html_re put_placeholder body). split; trivial.
    now apply html_sub_inv.
Qed.

(** *** Escaping *)

Lemma replace_app g new a b :
  replace g new (a ++ b) = replace g new a ++ replace g new b.
Proof. apply flat_map_app. Qed.

Lemma replace_cons g new c s :
  replace g new (c :: s) = (if c =? g then new else [c]) ++ replace g new s.
Proof. reflexivity. Qed.

Lemma replace_absent g new s : contains g s = false -> replace g new s = s.
Proof.
  unfold contains. induction s as [|c s IH]; [reflexivity|]. cbn [existsb].
  intros H. apply orb_false_elim in H as [Hc Hs].
  rewrite replace_cons, N.eqb_sym, Hc, (IH Hs). reflexivity.
Qed.

Section ReplaceClose.
Variable g : N.
Variable new : text.
Hypothesis g_star : (g =? 42) = false.
Hypothesis g_slash : (g =? 47) = false.
Hypothesis new_plain : contains 42 new = false.
Hypothesis new_head : exists d new', new = d :: new' /\ (d =? 47) = false.

Lemma replace_starts47 s : starts47 (replace g new s) = starts47 s.
Proof.
  destruct s as [|c s]; trivial. rewrite replace_cons. simpl.
  destruct (N.eqb_spec c g) as [->|_]; trivial.
  destruct new_head as (d & new' & -> & Hd). simpl. now rewrite Hd, g_slash.
Qed.

Lemma replace_find_close s :
  find_close s = None -> find_close (replace g new s) = None.
Proof.
  induction s as [|c s IH]; trivial.
  rewrite find_close_cons_None. intros [H1 H2]. rewrite replace_cons.
  destruct (N.eqb_spec c g) as [->|_].
  - apply find_close_app_plain; auto.
  - simpl app. apply find_close_cons_None. split; [auto|].
    now rewrite replace_starts47.
Qed.
End ReplaceClose.

Lemma escape_find_close s : find_close s = None -> find_close (escape s) = None.
Proof.
  intros H. unfold escape.
  apply replace_find_close; try reflexivity; [now exists 38, (str "gt;")|].
  apply replace_find_close; try reflexivity; [now exists 38, (str "lt;")|].
  exact H.
Qed.

Lemma escape_app a b : escape (a ++ b) = escape a ++ escape b.
Proof. unfold escape. now rewrite !replace_app. Qed.

Lemma escape_plain w :
  contains 60 w = false -> contains 62 w = false -> escape w = w.
Proof.
  intros H60 H62. unfold escape.
  rewrite (replace_absent 60) by trivial. now apply replace_absent.
Qed.

Lemma process_comment_eq b :
  process_comment b
  = if contains 60 b && contains 62 b
    then escape (re_sub html_re put_placeholder b) else b.
Proof. reflexivity. Qed.

(** A block stays a block: the delimiters are kept and no [*/] appears
    before the closing one. *)
Lemma process_comment_block body :
  find_close body = None ->
  exists body',
    process_comment (47 :: 42 :: 42 :: body ++ [42; 47])
    = 47 :: 42 :: 42 :: body' ++ [42; 47]
    /\ find_close body' = None.
Proof.
  intros Hb. rewrite process_comment_eq.
  destruct (contains 60 _ && contains 62 _); [|now exists body].
  destruct (html_sub_block body Hb) as (body' & -> & Hb').
  exists (escape body'). split; [|now apply escape_find_close].
  change (47 :: 42 :: 42 :: body' ++ [42; 47])
    with ([47; 42; 42] ++ body' ++ [42; 47]).
  now rewrite !escape_app.
Qed.

(** Text without angle brackets at the end of a block is out of reach. *)
Lemma process_comment_suffix x w :
  contains 60 w = false -> contains 62 w = false ->
  exists v, process_comment (x ++ w) = v ++ w.
Proof.
  intros H60 H62. rewrite process_comment_eq.
  destruct (contains 60 _ && contains 62 _); [|now exists x].
  rewrite (re_sub_app_needs 62), escape_app, (escape_plain w) by
    (trivial || apply html_needs).
  eauto.
Qed.

(** *** The blocks of the output *)

Lemma fix_nil : fix_jsdoc_html [] = [].
Proof. apply re_sub_nil. Qed.

Lemma fix_hit c s n :
  re_match jsdoc_re (c :: s) = Some (S n) ->
  fix_jsdoc_html (c :: s)
  = process_comment (c :: firstn n s) ++ fix_jsdoc_html (skipn n s).
Proof. apply re_sub_hit. Qed.

Lemma fix_keep c s :
  re_match jsdoc_re (c :: s) = None ->
  fix_jsdoc_html (c :: s) = c :: fix_jsdoc_html s.
Proof. intros H. apply re_sub_keep. now left. Qed.

Lemma jsdoc_match_pos s : re_match jsdoc_re s <> Some 0%nat.
Proof. intros H. apply jsdoc_match_inv in H as (? & ? & _ & H & _). lia. Qed.

Lemma fix_no_close s :
  find_close (skipn 3 s) = None -> fix_jsdoc_html s = s.
Proof.
  intros H. unfold fix_jsdoc_html, re_sub.
  now rewrite (re_scan_no_close s H), flat_map_Keep.
Qed.

(** The output starts with [*] only where the input does. *)
Lemma fix_head_star s r :
  fix_jsdoc_html s = 42 :: r -> exists s', s = 42 :: s' /\ r = fix_jsdoc_html s'.
Proof.
  destruct s as [|c s]; [now rewrite fix_nil|].
  destruct (re_match jsdoc_re (c :: s)) as [[|n]|] eqn:E.
  - now apply jsdoc_match_pos in E.
  - rewrite (fix_hit _ _ _ E).
    destruct (re_scan_hit_inv _ _ _ E) as (body & -> & Hb).
    destruct (process_comment_block body Hb) as (body' & -> & _). discriminate.
  - rewrite (fix_keep _ _ E). intros [= -> <-]. eauto.
Qed.

Theorem re_scan_fix s :
  re_scan jsdoc_re (fix_jsdoc_html s)
  = map (on_hit process_comment) (re_scan jsdoc_re s).
Proof.
  unfold fix_jsdoc_html at 1. unfold re_sub.
  apply (re_scan_ind' jsdoc_re (fun s ps =>
           re_scan jsdoc_re (flat_map (render process_comment) ps)
           = map (on_hit process_comment) ps)); clear s.
  - now simp re_scan.
  - intros c s n Hm Hn IH. cbn [flat_map map render on_hit].
    destruct (re_scan_hit_inv _ _ _ Hm) as (body & -> & Hb).
    destruct (process_comment_block body Hb) as (body' & -> & Hb').
    rewrite <- IH.
    change ((47 :: 42 :: 42 :: body' ++ [42; 47]) ++ ?x)
      with (47 :: 42 :: 42 :: (body' ++ [42; 47]) ++ x).
    rewrite <- app_assoc. now apply re_scan_block.
  - intros c s Hm IH. destruct Hm as [Hm|Hm]; [|now apply jsdoc_match_pos in Hm].
    cbn [flat_map map render on_hit app]. rewrite <- IH.
    apply re_scan_keep. left.
    change (flat_map (render process_comment) (re_scan jsdoc_re s))
      with (fix_jsdoc_html s).
    destruct (re_match jsdoc_re (c :: fix_jsdoc_html s)) as [n|] eqn:E; trivial.
    exfalso.
    destruct (jsdoc_match_head _ _ E) as (r & Er). injection Er as -> Er.
    apply fix_head_star in Er as (s1 & -> & Er). symmetry in Er.
    apply fix_head_star in Er as (s2 & -> & ->).
    rewrite !fix_keep in E by reflexivity.
    rewrite jsdoc_match_open in Hm, E.
    destruct (find_close s2) eqn:F; [discriminate|].
    rewrite fix_no_close in E by now apply find_close_skipn.
    now rewrite F in E.
Qed.

Lemma hits_map f ps : hits (map (on_hit f) ps) = map f (hits ps).
Proof.
  induction ps as [|[c|m] ps IH]; simpl; trivial. now rewrite IH.
Qed.

Lemma blocks_fix s : blocks (fix_jsdoc_html s) = map process_comment (blocks s).
Proof. unfold blocks. now rewrite re_scan_fix, hits_map. Qed.

(** Every located block is [/**], a body without [*/], [*/]. *)
Lemma blocks_shape s b :
  In b (blocks s) ->
  exists body, b = 47 :: 42 :: 42 :: body ++ [42; 47] /\ find_close body = None.
Proof.
  unfold blocks.
  apply (re_scan_ind' jsdoc_re (fun s ps =>
           In b (hits ps) -> exists body,
             b = 47 :: 42 :: 42 :: body ++ [42; 47] /\ find_close body = None));
    clear s; simpl; [tauto| |tauto].
  intros c s n Hm _ IH [<-|H]; [|auto]. now apply re_scan_hit_inv.
Qed.

(** *** What escaping leaves *)

Lemma contains_app g a b : contains g (a ++ b) = contains g a || contains g b.
Proof. apply existsb_app. Qed.

Lemma replace_removes g new s :
  contains g new = false -> contains g (replace g new s) = false.
Proof.
  intros Hn. induction s as [|c s IH]; [reflexivity|].
  rewrite replace_cons, contains_app, IH, orb_false_r.
  destruct (N.eqb_spec c g) as [->|Hc]; trivial.
  unfold contains. simpl. rewrite orb_false_r. now apply N.eqb_neq, not_eq_sym.
Qed.

Lemma replace_keeps_out h g new s :
  contains h new = false -> contains h s = false ->
  contains h (replace g new s) = false.
Proof.
  intros Hn. induction s as [|c s IH]; [reflexivity|].
  change (c :: s) with ([c] ++ s) at 1. rewrite contains_app.
  intros H. apply orb_false_elim in H as [Hc Hs].
  rewrite replace_cons, contains_app, (IH Hs), orb_false_r.
  now destruct (c =? g).
Qed.

Lemma escape_no_lt s : contains 60 (escape s) = false.
Proof.
  unfold escape. apply replace_keeps_out; [reflexivity|].
  now apply replace_removes.
Qed.

Lemma escape_no_gt s : contains 62 (escape s) = false.
Proof. unfold escape. now apply replace_removes. Qed.

Lemma process_comment_idem b :
  process_comment (process_comment b) = process_comment b.
Proof.
  rewrite (process_comment_eq b).
  destruct (contains 60 b && contains 62 b) eqn:E.
  - rewrite process_comment_eq, escape_no_lt. reflexivity.
  - rewrite process_comment_eq, E. reflexivity.
Qed.

Lemma render_on_hit f g p : render f (on_hit g p) = render (fun m => f (g m)) p.
Proof. now destruct p. Qed.

(** *** Text without a block *)

Lemma has_block_false s : has_block s = false -> re_scan jsdoc_re s = map Keep s.
Proof.
  induction s as [|c s IH]; [now simp re_scan|]. cbn [has_block].
  destruct (re_match jsdoc_re (c :: s)) eqn:E; [discriminate|].
  intros H. rewrite re_scan_keep by now left. simpl. now rewrite IH.
Qed.

Lemma has_block_spec s :
  has_block s = true <->
  exists pre body post, s = pre ++ str "/**" ++ body ++ str "*/" ++ post.
Proof.
  rewrite str_open, str_close. split.
  - induction s as [|c s IH]; [discriminate|]. cbn [has_block].
    destruct (re_match jsdoc_re (c :: s)) eqn:E.
    + intros _. apply jsdoc_match_inv in E as (body & post & -> & _).
      now exists [], body, post.
    + intros H. destruct (IH H) as (pre & body & post & ->).
      now exists (c :: pre), body, post.
  - intros (pre & body & post & ->). induction pre as [|c pre IH].
    + cbn [app has_block]. rewrite jsdoc_match_open.
      destruct (find_close _) eqn:F; [reflexivity|].
      now apply find_close_found in F.
    + cbn [app has_block]. now destruct (re_match jsdoc_re _).
Qed.

(** *** An unterminated marker *)

Lemma app_tail_inv (x y z : text) q :
  x ++ y = z ++ [q] -> y <> [] -> exists y0, y = y0 ++ [q].
Proof.
  intros E Hy. destruct (exists_last Hy) as (y0 & a & ->).
  rewrite app_assoc in E. apply app_inj_tail in E as [_ ->]. now exists y0.
Qed.

(** A block that runs into an unterminated [/**] takes from it at most
    [/] or [/**/], and so no angle bracket. *)
Lemma overlap_plain pre l post body rest :
  pre ++ l = 47 :: 42 :: 42 :: body ++ [42; 47] ->
  47 :: 42 :: 42 :: rest = l ++ post ->
  find_close rest = None ->
  contains 60 l = false /\ contains 62 l = false.
Proof.
  intros Eb Et Hr.
  destruct l as [|a l]; [split; reflexivity|]. injection Et as <- Et.
  destruct l as [|b l]; [split; reflexivity|]. injection Et as <- Et.
  destruct l as [|c l]; [split; reflexivity|]. injection Et as <- Et.
  destruct l as [|d l]; [split; reflexivity|].
  assert (X : 47 :: 42 :: 42 :: body ++ [42; 47]
               = (47 :: 42 :: 42 :: body ++ [42]) ++ [47])
    by (simpl; now rewrite <- app_assoc).
  rewrite X in Eb. clear X.
  destruct l as [|e l].
  - change [47; 42; 42; d] with ([47; 42; 42] ++ [d]) in Eb.
    rewrite app_assoc in Eb. apply app_inj_tail in Eb as [_ ->].
    split; reflexivity.
  - exfalso.
    change (47 :: 42 :: 42 :: d :: e :: l) with ([47; 42; 42] ++ d :: e :: l) in Eb.
    rewrite app_assoc in Eb.
    destruct (app_tail_inv _ _ _ _ Eb) as (y0 & Ey); [discriminate|].
    rewrite Ey, app_assoc in Eb. apply app_inj_tail in Eb as [Eb _].
    change (47 :: 42 :: 42 :: body ++ [42])
      with ((47 :: 42 :: 42 :: body) ++ [42]) in Eb.
    destruct y0 as [|y1 y0]; [discriminate|].
    destruct (app_tail_inv _ _ _ _ Eb) as (y2 & Ey2); [discriminate|].
    rewrite Ey2 in Ey. rewrite Et, Ey, <- !app_assoc in Hr. simpl in Hr.
    now apply find_close_found in Hr.
Qed.

Lemma fix_unterminated pre rest :
  find_close rest = None ->
  exists pre',
    fix_jsdoc_html (pre ++ 47 :: 42 :: 42 :: rest) = pre' ++ 47 :: 42 :: 42 :: rest.
Proof.
  intros Hr. set (t := 47 :: 42 :: 42 :: rest).
  remember (pre ++ t) as s eqn:Es. revert pre Es.
  unfold fix_jsdoc_html, re_sub.
  apply (re_scan_ind' jsdoc_re (fun s ps =>
           forall pre, s = pre ++ t ->
           exists pre', flat_map (render process_comment) ps = pre' ++ t)); clear s.
  - intros pre E. symmetry in E. apply app_eq_nil in E as [_ E]. discriminate.
  - intros c s n Hm Hn IH pre E.
    destruct (re_scan_hit_inv _ _ _ Hm) as (body & Eb & Hb).
    cbn [flat_map render].
    change (flat_map (render process_comment) (re_scan jsdoc_re (skipn n s)))
      with (fix_jsdoc_html (skipn n s)) in *.
    assert (E' : (c :: firstn n s) ++ skipn n s = pre ++ t)
      by (simpl; now rewrite firstn_skipn).
    apply app_eq_app in E' as (l & [[E1 E2]|[E1 E2]]).
    + (* the block runs into the marker *)
      destruct (overlap_plain pre l (skipn n s) body rest) as [H60 H62]; trivial.
      { now rewrite <- E1. }
      destruct (process_comment_suffix pre l H60 H62) as (v & Hv).
      rewrite E1, Hv. exists v.
      rewrite fix_no_close.
      * now rewrite <- app_assoc, <- E2.
      * assert (Hs : skipn n s = skipn (length l) t)
          by (rewrite E2; symmetry; now apply skipn_exact).
        rewrite Hs, skipn_skipn, Nat.add_comm, <- skipn_skipn.
        now apply find_close_skipn.
    + (* the block ends before the marker *)
      destruct (IH l E2) as (pre' & ->). rewrite Eb in *.
      exists (process_comment (47 :: 42 :: 42 :: body ++ [42; 47]) ++ pre').
      now rewrite app_assoc.
  - intros c s Hm IH pre E. cbn [flat_map render app].
    destruct pre as [|c' pre]; simpl in E.
    + exists []. simpl. rewrite <- E. f_equal.
      change (flat_map (render process_comment) (re_scan jsdoc_re s))
        with (fix_jsdoc_html s).
      apply fix_no_close. unfold t in E. injection E as _ ->.
      now apply (find_close_skipn 1).
    + injection E as <- E. destruct (IH pre E) as (pre' & ->).
      now exists (c :: pre').
Qed.

Section Size.
Variable mu : N -> nat.
Hypothesis mu_pos : forall c, (1 <= mu c)%nat.
Hypothesis mu_ascii : forall c, (c <? 128) = true -> mu c = 1%nat.

Lemma size_app a b : size mu (a ++ b) = (size mu a + size mu b)%nat.
Proof. unfold size. now rewrite map_app, list_sum_app. Qed.

Lemma size_cons c s : size mu (c :: s) = (mu c + size mu s)%nat.
Proof. reflexivity. Qed.

Lemma size_split n c s :
  size mu (c :: s) = (mu c + size mu (firstn n s) + size mu (skipn n s))%nat.
Proof.
  rewrite size_cons, <- Nat.add_assoc, <- size_app. now rewrite firstn_skipn.
Qed.

Lemma size_length s : (length s <= size mu s)%nat.
Proof.
  induction s as [|c s IH]; [apply Nat.le_refl|]. rewrite size_cons. simpl.
  specialize (mu_pos c). lia.
Qed.

Lemma size_ascii s :
  forallb (fun c => c <? 128) s = true -> size mu s = length s.
Proof.
  induction s as [|c s IH]; [reflexivity|]. simpl. intros H.
  apply andb_prop in H as [Hc Hs]. rewrite size_cons, (mu_ascii c Hc), (IH Hs).
  reflexivity.
Qed.

Lemma escape_chr c :
  escape [c] = if c =? 60 then amp_lt else if c =? 62 then amp_gt else [c].
Proof.
  unfold escape, replace. cbn [flat_map]. rewrite app_nil_r.
  destruct (c =? 60); [reflexivity|]. cbn [flat_map]. rewrite app_nil_r.
  reflexivity.
Qed.

Lemma escape_chr_size c : (size mu (escape [c]) <= 4 * mu c)%nat.
Proof.
  specialize (mu_pos c). rewrite escape_chr.
  destruct (c =? 60); [rewrite size_ascii by reflexivity; simpl; lia|].
  destruct (c =? 62); [rewrite size_ascii by reflexivity; simpl; lia|].
  rewrite size_cons. unfold size. simpl. lia.
Qed.

Lemma escape_cons c s : escape (c :: s) = escape [c] ++ escape s.
Proof. change (c :: s) with ([c] ++ s). apply escape_app. Qed.

Lemma html_sub_size s :
  (size mu (escape (re_sub html_re put_placeholder s)) <= 6 * size mu s)%nat.
Proof.
  unfold re_sub.
  apply (re_scan_ind' html_re (fun s ps =>
           (size mu (escape (flat_map (render put_placeholder) ps))
            <= 6 * size mu s)%nat)); clear s.
  - apply Nat.le_0_l.
  - intros c s n Hm Hn IH. apply html_match_shape in Hm as [-> Hm].
    cbn [flat_map render].
    change (put_placeholder (42 :: firstn n s)) with placeholder.
    rewrite escape_app, (escape_plain placeholder) by reflexivity.
    rewrite size_app, (size_ascii placeholder) by reflexivity.
    rewrite (size_split n).
    pose proof (size_length (firstn n s)) as Hf. rewrite length_firstn in Hf.
    specialize (mu_pos 42). change (length placeholder) with 47%nat. lia.
  - intros c s _ IH. cbn [flat_map render app].
    rewrite escape_cons, size_app, size_cons.
    pose proof (escape_chr_size c). lia.
Qed.

Lemma process_comment_size b :
  (size mu (process_comment b) <= 6 * size mu b)%nat.
Proof.
  rewrite process_comment_eq. destruct (_ && _); [apply html_sub_size|lia].
Qed.

Lemma fix_size s : (size mu (fix_jsdoc_html s) <= 6 * size mu s)%nat.
Proof.
  unfold fix_jsdoc_html, re_sub.
  apply (re_scan_ind' jsdoc_re (fun s ps =>
           (size mu (flat_map (render process_comment) ps)
            <= 6 * size mu s)%nat)); clear s.
  - apply Nat.le_0_l.
  - intros c s n Hm Hn IH. cbn [flat_map render]. rewrite size_app.
    pose proof (process_comment_size (c :: firstn n s)) as Hp.
    rewrite size_cons in Hp. rewrite (size_split n). lia.
  - intros c s _ IH. cbn [flat_map render app]. rewrite !size_cons.
    specialize (mu_pos c). lia.
Qed.
End Size.

Lemma size_one s : size (fun _ => 1%nat) s = length s.
Proof. induction s as [|c s IH]; [reflexivity|]. unfold size in *. simpl. now rewrite IH. Qed.

Lemma utf8_len_pos c : (1 <= utf8_len c)%nat.
Proof. unfold utf8_len. repeat destruct (_ <? _); lia. Qed.

Lemma utf8_len_ascii c : (c <? 128) = true -> utf8_len c = 1%nat.
Proof. unfold utf8_len. now intros ->. Qed.

(** *** The declarative scan determines the pieces *)

Lemma app_same_length (a b a' b' : text) :
  a ++ b = a' ++ b' -> length a = length a' -> a = a' /\ b = b'.
Proof.
  intros E L. split.
  - rewrite <- (firstn_exact a b (length a) eq_refl), E. now apply firstn_exact.
  - rewrite <- (skipn_exact a b (length a) eq_refl), E. now apply skipn_exact.
Qed.

Lemma Scan_deterministic (P : text -> Prop) s ps ps' :
  ~ P [] -> Scan P s ps -> Scan P s ps' -> ps = ps'.
Proof.
  intros Hne H. revert ps'.
  induction H as [|m s ps Hm Hmin _ IH|c s ps Hno _ IH]; intros ps' H'.
  - inversion H' as [|m' s' ps0 Hm' _ _ E|]; trivial.
    apply app_eq_nil in E as [-> _]. contradiction.
  - remember (m ++ s) as s0 eqn:E.
    destruct H' as [|m' s' ps' Hm' Hmin' H'|c s' ps' Hno' H'].
    + symmetry in E. apply app_eq_nil in E as [-> _]. contradiction.
    + pose proof (Hmin _ _ eq_refl Hm') as L1.
      pose proof (Hmin' _ _ E Hm) as L2.
      destruct (app_same_length _ _ _ _ E) as [-> ->]; [lia|].
      f_equal. now apply IH.
    + exfalso. now apply (Hno' m s).
  - remember (c :: s) as s0 eqn:E.
    destruct H' as [|m' s' ps' Hm' Hmin' H'|c' s' ps' Hno' H'].
    + discriminate.
    + exfalso. now apply (Hno m' s').
    + injection E as -> ->. f_equal. now apply IH.
Qed.

Lemma re_scan_join r s : flat_map (render (fun m => m)) (re_scan r s) = s.
Proof.
  apply (re_scan_ind' r (fun s ps => flat_map (render (fun m => m)) ps = s)).
  - reflexivity.
  - intros c s' n _ _ IH. cbn [flat_map render app]. rewrite IH.
    simpl. now rewrite firstn_skipn.
  - intros c s' _ IH. cbn [flat_map render app]. now rewrite IH.
Qed.

(** *** The file loop *)

Lemma read_text_trace f w :
  exists r, read_text f w = (r, mkworld (files_of w) (trace w ++ [OpenR f])).
Proof.
  unfold read_text, bind, emit, lookup, ret, raise. simpl.
  destruct (files_of w f) as [x|]; [|eauto].
  destruct (readable x); [|eauto]. destruct (body x); eauto.
Qed.

Lemma write_text_trace f t w :
  exists r w',
    write_text f t w = (r, w')
    /\ exists d, trace w' = trace w ++ d /\ attempts d = [] /\ reports d = [].
Proof.
  unfold write_text, bind, emit, lookup, store, ret, raise. simpl.
  destruct (files_of w f) as [x|]; simpl.
  - destruct (writable x); simpl.
    + destruct (room x) as [k|]; simpl.
      * destruct (k <? byte_length t)%nat; simpl; do 2 eexists; (split; [reflexivity|]);
          simpl; rewrite <- app_assoc; eexists; (split; [reflexivity|]); split; reflexivity.
      * do 2 eexists. split; [reflexivity|]. simpl. rewrite <- app_assoc.
        eexists. split; [reflexivity|]. split; reflexivity.
    + do 2 eexists. split; [reflexivity|]. simpl.
      eexists. split; [reflexivity|]. split; reflexivity.
  - do 2 eexists. split; [reflexivity|]. simpl. rewrite <- app_assoc.
    eexists. split; [reflexivity|]. split; reflexivity.
Qed.

Lemma attempts_app a b : attempts (a ++ b) = attempts a ++ attempts b.
Proof. apply flat_map_app. Qed.

Lemma reports_app a b : reports (a ++ b) = reports a ++ reports b.
Proof. apply flat_map_app. Qed.

(** One turn of the loop: it ends normally, having tried the file once and
    reported on it once. *)
Lemma process_file_spec f w :
  exists w' d,
    process_file f w = (Ok tt, w')
    /\ trace w' = trace w ++ d /\ attempts d = [f] /\ reports d = [f].
Proof.
  unfold process_file, try_except. unfold bind at 1.
  destruct (read_text_trace f w) as (r & ->).
  destruct r as [content|e].
  - unfold bind.
    destruct (write_text_trace f (fix_jsdoc_html content)
                (mkworld (files_of w) (trace w ++ [OpenR f])))
      as (r & w1 & -> & d & Hd & Ha & Hr).
    simpl in Hd. destruct r as [[]|e]; unfold emit; simpl.
    + exists (mkworld (files_of w1) (trace w1 ++ [Printed (Fixed f)])),
        ([OpenR f] ++ d ++ [Printed (Fixed f)]).
      split; [reflexivity|]. simpl trace. rewrite Hd, <- !app_assoc.
      split; [reflexivity|].
      rewrite !attempts_app, !reports_app, Ha, Hr. split; reflexivity.
    + exists (mkworld (files_of w1) (trace w1 ++ [Printed (ErrorFixing f e)])),
        ([OpenR f] ++ d ++ [Printed (ErrorFixing f e)]).
      split; [reflexivity|]. simpl trace. rewrite Hd, <- !app_assoc.
      split; [reflexivity|].
      rewrite !attempts_app, !reports_app, Ha, Hr. split; reflexivity.
  - unfold emit. simpl.
    exists (mkworld (files_of w) ((trace w ++ [OpenR f]) ++ [Printed (ErrorFixing f e)])),
      [OpenR f; Printed (ErrorFixing f e)].
    split; [reflexivity|]. simpl. rewrite <- app_assoc.
    split; [reflexivity|]. split; reflexivity.
Qed.

Lemma for_each_spec fs w :
  exists w' d,
    for_each fs w = (Ok tt, w')
    /\ trace w' = trace w ++ d /\ attempts d = fs /\ reports d = fs.
Proof.
  revert w. induction fs as [|f fs IH]; intros w.
  - exists w, []. simpl. rewrite app_nil_r. repeat split.
  - cbn [for_each]. unfold bind.
    destruct (process_file_spec f w) as (w1 & d1 & -> & H1 & A1 & R1).
    destruct (IH w1) as (w2 & d2 & -> & H2 & A2 & R2).
    exists w2, (d1 ++ d2). split; [reflexivity|].
    rewrite H2, H1, <- app_assoc. split; [reflexivity|].
    now rewrite attempts_app, reports_app, A1, A2, R1, R2.
Qed.

(* ===================================================================== *)
(** * The properties of the specification *)

(** The three end-to-end scenarios on file content. *)
Example scenario_tag_pair :
  fix_jsdoc_html (str "/** <div>hello</div> more text */")
  = str "/** [HTML example removed for Vite compatibility] more text */".
Proof. vm_compute. reflexivity. Qed.

Example scenario_plain :
  fix_jsdoc_html (str "/** plain doc, no tags */")
  = str "/** plain doc, no tags */".
Proof. vm_compute. reflexivity. Qed.

Example scenario_unmatched :
  fix_jsdoc_html (str "/** value < 5 and > 2 */")
  = str "/** value &lt; 5 and &gt; 2 */".
Proof. vm_compute. reflexivity. Qed.

(** The fourth scenario: the first file is missing, the second is
    sanitised all the same, and the final notice is printed. *)
Example scenario_missing_file :
  let d := update (fun _ => None) "b.js"%string
             (mkfile (Decoded (str "/** a < b > c */")) true true None) in
  let out := run ["a.js"; "b.js"]%string (mkworld d []) in
  fst out = Ok tt
  /\ trace (snd out)
     = [OpenR "a.js"; Printed (ErrorFixing "a.js" FileNotFoundError);
        OpenR "b.js"; OpenW "b.js";
        Wrote "b.js" (str "/** a &lt; b &gt; c */");
        Printed (Fixed "b.js"); Printed AllProcessed]%string
  /\ option_map body (files_of (snd out) "b.js"%string)
     = Some (Decoded (str "/** a &lt; b &gt; c */"))
  /\ files_of (snd out) "a.js"%string = None.
Proof. vm_compute. auto. Qed.

(** A text has no [*/] exactly when [find_close] finds none. *)
Lemma find_close_None_iff s :
  find_close s = None <-> forall a b, s <> a ++ str "*/" ++ b.
Proof.
  rewrite str_close. split.
  - intros H a b ->. now apply find_close_found in H.
  - intros H. destruct (find_close s) as [j|] eqn:F; trivial.
    apply find_close_Some in F as (body & post & -> & _). now destruct (H body post).
Qed.

(** ** C1: the spans replaced inside a block *)

(** C1, as the specification words it, does not hold: a span [*], white
    space, [<], any characters, closing tag is replaced only when the [<]
    opens a tag of its own, closed by a [>] before the closing tag starts.
    In [* < 5 </li>] the first [>] is the one of [</li>]: the wording makes
    it a span, the pattern of the script does not, and the angle brackets
    are escaped instead. *)
Lemma html_span_wording_counterexample :
  re_match spec_html_re (str "* < 5 </li> */") = Some 11%nat
  /\ re_match html_re (str "* < 5 </li> */") = None
  /\ spec_sanitize (str "/** * < 5 </li> */")
     = str "/** * [HTML example removed for Vite compatibility] */"
  /\ fix_jsdoc_html (str "/** * < 5 </li> */")
     = str "/** * &lt; 5 &lt;/li&gt; */"
  /\ fix_jsdoc_html (str "/** * < 5 </li> */")
     <> spec_sanitize (str "/** * < 5 </li> */").
Proof. repeat split; try (vm_compute; reflexivity). vm_compute. discriminate. Qed.

(** C1 (amended): for every content and every located block of it that
    contains a [<] and a [>], the block is rewritten by cutting it, left to
    right, at the leftmost and then shortest spans made of [*], white space,
    an opening tag [<...>] of at least one character other than [>], any
    characters, and a closing tag [</...>] of at least one character other
    than [>]; each such span becomes the placeholder, every other character
    is kept, and the result is escaped. *)
Theorem html_spans_replaced content :
  fix_jsdoc_html content
  = flat_map (render process_comment) (re_scan jsdoc_re content)
  /\ forall b,
      In b (blocks content) ->
      contains 60 b = true -> contains 62 b = true ->
      exists qs,
        Scan TagSpan b qs
        /\ (forall qs', Scan TagSpan b qs' -> qs' = qs)
        /\ process_comment b
           = replace 62 amp_gt
               (replace 60 amp_lt (flat_map (render (fun _ => placeholder)) qs)).
Proof.
  split; [reflexivity|]. intros b _ H60 H62.
  exists (re_scan html_re b). split; [apply html_Scan|]. split.
  - intros qs' H. apply (Scan_deterministic TagSpan b); trivial.
    + apply TagSpan_nonempty.
    + apply html_Scan.
  - unfold process_comment. now rewrite H60, H62.
Qed.

(** ** C2: length of the output *)

(** C2 does not hold: escaping makes the text longer. *)
Lemma length_bound_counterexample :
  length (str "/** value < 5 and > 2 */") = 24%nat
  /\ length (fix_jsdoc_html (str "/** value < 5 and > 2 */")) = 30%nat
  /\ byte_length (str "/** value < 5 and > 2 */") = 24%nat
  /\ byte_length (fix_jsdoc_html (str "/** value < 5 and > 2 */")) = 30%nat
  /\ ~ (length (fix_jsdoc_html (str "/** value < 5 and > 2 */"))
        <= length (str "/** value < 5 and > 2 */"))%nat.
Proof. repeat split; try (vm_compute; reflexivity). vm_compute. lia. Qed.

(** C2 (amended): the length of the output is bounded by six times the
    length of the input, in characters and in UTF-8 bytes. *)
Theorem fix_jsdoc_html_length_bound content :
  (length (fix_jsdoc_html content) <= 6 * length content)%nat
  /\ (byte_length (fix_jsdoc_html content) <= 6 * byte_length content)%nat.
Proof.
  split.
  - rewrite <- !size_one. apply fix_size; [intros; apply Nat.le_refl|reflexivity].
  - apply (fix_size utf8_len); [apply utf8_len_pos|apply utf8_len_ascii].
Qed.

(** ** C3: idempotence *)

(** C3: [sanitize (sanitize x) = sanitize x] for every [x]. *)
Theorem fix_jsdoc_html_idempotent x :
  fix_jsdoc_html (fix_jsdoc_html x) = fix_jsdoc_html x.
Proof.
  (* the second pass finds the blocks the first one left ... *)
  unfold fix_jsdoc_html at 1. unfold re_sub. rewrite re_scan_fix.
  (* ... and leaves each of them as it is *)
  unfold fix_jsdoc_html, re_sub. rewrite flat_map_concat_map, map_map.
  rewrite flat_map_concat_map. f_equal. apply map_ext.
  intros [c|m]; simpl; trivial. apply process_comment_idem.
Qed.

(** ** C4: escaping is exhaustive in a modified block *)

(** C4: cut the content at its comment blocks, the leftmost and then
    shortest texts made of [/**], any characters and [*/]; there is one way
    to do so.  The output is cut at the images of these blocks, in the same
    places.  For a block with a [<] and a [>], the image is the block after
    the tag-span replacements with every [<] replaced by [&lt;] and every
    [>] by [&gt;], and it holds no [<] and no [>]. *)
Theorem escaping_exhaustive content :
  exists ps,
    Scan Block content ps
    /\ (forall ps', Scan Block content ps' -> ps' = ps)
    /\ fix_jsdoc_html content = flat_map (render process_comment) ps
    /\ Scan Block (fix_jsdoc_html content) (map (on_hit process_comment) ps)
    /\ blocks content = hits ps
    /\ blocks (fix_jsdoc_html content) = map process_comment (hits ps)
    /\ forall b,
        In (Hit b) ps ->
        contains 60 b = true -> contains 62 b = true ->
        (exists qs,
            Scan TagSpan b qs
            /\ (forall qs', Scan TagSpan b qs' -> qs' = qs)
            /\ process_comment b
               = replace 62 amp_gt
                   (replace 60 amp_lt
                      (flat_map (render (fun _ => placeholder)) qs)))
        /\ process_comment b
           = replace 62 amp_gt
               (replace 60 amp_lt (re_sub html_re (fun _ => placeholder) b))
        /\ contains 60 (process_comment b) = false
        /\ contains 62 (process_comment b) = false.
Proof.
  exists (re_scan jsdoc_re content).
  split; [apply jsdoc_Scan|]. split.
  { intros ps' H. apply (Scan_deterministic Block content); trivial.
    - apply Block_nonempty.
    - apply jsdoc_Scan. }
  split; [reflexivity|]. split.
  { rewrite <- re_scan_fix. apply jsdoc_Scan. }
  split; [reflexivity|]. split; [apply blocks_fix|].
  intros b _ H60 H62.
  assert (E : process_comment b = escape (re_sub html_re put_placeholder b))
    by (rewrite process_comment_eq; now rewrite H60, H62).
  split; [|split; [exact E|rewrite E; split;
                             [apply escape_no_lt|apply escape_no_gt]]].
  exists (re_scan html_re b). split; [apply html_Scan|]. split; [|exact E].
  intros qs' H. apply (Scan_deterministic TagSpan b); trivial.
  - apply TagSpan_nonempty.
  - apply html_Scan.
Qed.

(** ** C5: text outside the blocks *)

(** C5: cut the content at its comment blocks; the content is the pieces
    put together, the output is the same pieces with each block replaced by
    its image, and these are again the pieces at which the output is cut:
    every character outside a block is where it was, unchanged and still
    outside.  A block and its image both carry the delimiters [/**] and
    [*/]: what changes lies between them. *)
Theorem outside_blocks_unchanged content :
  let ps := re_scan jsdoc_re content in
  Scan Block content ps
  /\ flat_map (render (fun b => b)) ps = content
  /\ flat_map (render process_comment) ps = fix_jsdoc_html content
  /\ Scan Block (fix_jsdoc_html content) (map (on_hit process_comment) ps)
  /\ skeleton (re_scan jsdoc_re (fix_jsdoc_html content)) = skeleton ps
  /\ forall b,
      In (Hit b) ps ->
      exists body body',
        b = str "/**" ++ body ++ str "*/"
        /\ process_comment b = str "/**" ++ body' ++ str "*/".
Proof.
  intros ps. split; [apply jsdoc_Scan|]. split; [apply re_scan_join|].
  split; [reflexivity|]. split; [|split].
  - unfold ps. rewrite <- re_scan_fix. apply jsdoc_Scan.
  - unfold ps, skeleton. rewrite re_scan_fix, map_map. apply map_ext.
    now intros [c|m].
  - intros b Hb.
    assert (Hin : In b (blocks content)).
    { unfold blocks, hits. apply in_flat_map. exists (Hit b). simpl. auto. }
    apply blocks_shape in Hin as (body & -> & Hn).
    destruct (process_comment_block body Hn) as (body' & E & _).
    exists body, body'. rewrite str_open, str_close. auto.
Qed.

(** ** C6: content without a block *)

(** C6: content that contains no [/** ... */] block is returned unchanged. *)
Theorem no_block_unchanged content :
  has_block content = false -> fix_jsdoc_html content = content.
Proof.
  intros H. unfold fix_jsdoc_html, re_sub.
  now rewrite (has_block_false _ H), flat_map_Keep.
Qed.

Lemma no_block_unchanged_witness :
  has_block (str "if (a < b) { /* <i>x</i> */ } /** open <b>y</b>") = false
  /\ fix_jsdoc_html (str "if (a < b) { /* <i>x</i> */ } /** open <b>y</b>")
     = str "if (a < b) { /* <i>x</i> */ } /** open <b>y</b>".
Proof.
  split; [vm_compute; reflexivity|].
  apply (no_block_unchanged (str "if (a < b) { /* <i>x</i> */ } /** open <b>y</b>")).
  vm_compute. reflexivity.
Defined.

(** ** C7: the run over the file list *)

(** C7: whatever the files and the state of the disk, the run tries every
    file of the list, in order, reports on every one, prints the final
    notice last, and ends with exit status 0. *)
Theorem run_isolates_failures fs w :
  exists w' delta,
    run fs w = (Ok tt, w')
    /\ exit_code (fst (run fs w)) = 0%nat
    /\ trace w' = trace w ++ delta ++ [Printed AllProcessed]
    /\ attempts delta = fs
    /\ reports delta = fs.
Proof.
  unfold run, bind.
  destruct (for_each_spec fs w) as (w1 & d & -> & Ht & Ha & Hr).
  exists (mkworld (files_of w1) (trace w1 ++ [Printed AllProcessed])), d.
  unfold emit. simpl. rewrite Ht, <- app_assoc. auto.
Qed.

(** ** C8: a failure while reading *)

(** C8: when reading the file fails, the turn of the loop leaves the disk
    as it was, and does nothing but the attempt to open the file and the
    report of the error: no write is attempted. *)
Theorem read_failure_leaves_file f w e w1 :
  read_text f w = (Raised e, w1) ->
  exists w',
    process_file f w = (Ok tt, w')
    /\ files_of w' = files_of w
    /\ trace w' = trace w ++ [OpenR f; Printed (ErrorFixing f e)]
    /\ writes_to f [OpenR f; Printed (ErrorFixing f e)] = false.
Proof.
  intros H. unfold process_file, try_except. unfold bind at 1. rewrite H.
  destruct (read_text_trace f w) as (r & Hr). rewrite H in Hr.
  injection Hr as _ ->. unfold emit. simpl.
  eexists. split; [reflexivity|]. simpl. rewrite <- app_assoc. auto.
Qed.

Lemma read_failure_leaves_file_witness :
  let f := "components.js"%string in
  let w := mkworld (fun _ => None) [] in
  read_text f w = (Raised FileNotFoundError, mkworld (fun _ => None) [OpenR f])
  /\ exists w',
      process_file f w = (Ok tt, w')
      /\ files_of w' = files_of w
      /\ trace w' = trace w ++ [OpenR f; Printed (ErrorFixing f FileNotFoundError)]
      /\ writes_to f [OpenR f; Printed (ErrorFixing f FileNotFoundError)] = false.
Proof.
  intros f w. split; [reflexivity|].
  apply (read_failure_leaves_file f w FileNotFoundError
           (mkworld (fun _ => None) [OpenR f])).
  reflexivity.
Defined.

(** ** C9: unterminated and nested markers *)

(** C9: a [/**] with no [*/] after it starts no block, and it and what
    follows it reach the output unchanged, whatever precedes; and a [/**]
    followed by a body without [*/] and then [*/] is a block that ends at
    that [*/], whatever [/**] the body contains. *)
Theorem unterminated_and_first_close pre rest body post :
  find_close rest = None ->
  find_close body = None ->
  re_match jsdoc_re (str "/**" ++ rest) = None
  /\ fix_jsdoc_html (str "/**" ++ rest) = str "/**" ++ rest
  /\ (exists pre',
        fix_jsdoc_html (pre ++ str "/**" ++ rest) = pre' ++ str "/**" ++ rest)
  /\ re_scan jsdoc_re (str "/**" ++ body ++ str "*/" ++ post)
     = Hit (str "/**" ++ body ++ str "*/") :: re_scan jsdoc_re post.
Proof.
  intros Hr Hb. rewrite str_open, str_close. cbn [app]. repeat split.
  - now rewrite jsdoc_match_open, Hr.
  - now apply fix_no_close.
  - now apply fix_unterminated.
  - now apply re_scan_block.
Qed.

Lemma unterminated_and_first_close_witness :
  let pre := str "a /** <i>b</i> */ c " in
  let rest := str " <b>open</b> /** again" in
  let body := str " one /** two " in
  let post := str " tail */" in
  find_close rest = None /\ find_close body = None
  /\ re_match jsdoc_re (str "/**" ++ rest) = None
  /\ fix_jsdoc_html (str "/**" ++ rest) = str "/**" ++ rest
  /\ (exists pre',
        fix_jsdoc_html (pre ++ str "/**" ++ rest) = pre' ++ str "/**" ++ rest)
  /\ re_scan jsdoc_re (str "/**" ++ body ++ str "*/" ++ post)
     = Hit (str "/**" ++ body ++ str "*/") :: re_scan jsdoc_re post.
Proof.
  intros pre rest body post.
  split; [reflexivity|]. split; [reflexivity|].
  apply (unterminated_and_first_close pre rest body post); reflexivity.
Defined.

(** ** C10: the block structure *)

(** C10: the blocks of the output are the images of the blocks of the
    input, one for one and in order, so there are as many; and each block,
    like its image, starts with [/**] and ends with [*/]. *)
Theorem block_structure_preserved content :
  blocks (fix_jsdoc_html content) = map process_comment (blocks content)
  /\ length (blocks (fix_jsdoc_html content)) = length (blocks content)
  /\ forall b,
      In b (blocks content) ->
      exists body body',
        b = str "/**" ++ body ++ str "*/"
        /\ process_comment b = str "/**" ++ body' ++ str "*/"
        /\ find_close body = None /\ find_close body' = None.
Proof.
  split; [apply blocks_fix|]. split; [now rewrite blocks_fix, length_map|].
  intros b Hb. apply blocks_shape in Hb as (body & -> & Hn).
  destruct (process_comment_block body Hn) as (body' & E & Hn').
  exists body, body'. rewrite str_open, str_close. auto.
Qed.

(* ===================================================================== *)
(** * Further properties of the script *)

(** ** The disk *)

Lemma update_same d f x : update d f x f = Some x.
Proof. unfold update. now rewrite String.eqb_refl. Qed.

Lemma update_other d f x g : g <> f -> update d f x g = d g.
Proof. unfold update. intros H. apply String.eqb_neq in H. now rewrite H. Qed.

Lemma update_exists d f x y g :
  d f = Some y -> (update d f x g = None <-> d g = None).
Proof.
  intros Hf. unfold update. destruct (String.eqb_spec g f) as [->|_]; [|tauto].
  rewrite Hf. split; discriminate.
Qed.

(** Unfold a turn of the loop down to the state of the file. *)
Ltac turn_cases f w :=
  unfold process_file, try_except, read_text, write_text,
    bind, emit, lookup, store, ret, raise;
  cbn [files_of trace fst snd];
  let x := fresh "x" in
  let Ef := fresh "Ef" in
  destruct (files_of w f) as [x|] eqn:Ef; cbn [files_of trace fst snd];
  [ let Er := fresh "Er" in
    destruct (readable x) eqn:Er; cbn [files_of trace fst snd];
    [ let t := fresh "t" in
      let Eb := fresh "Eb" in
      destruct (body x) as [t|] eqn:Eb; cbn [files_of trace fst snd];
      [ rewrite ?Ef; cbn [files_of trace fst snd];
        let Ew := fresh "Ew" in
        destruct (writable x) eqn:Ew; cbn [files_of trace fst snd];
        [ let k := fresh "k" in
          let Ek := fresh "Ek" in
          destruct (room x) as [k|] eqn:Ek; cbn [files_of trace fst snd];
          [ let El := fresh "El" in
            destruct (k <? byte_length (fix_jsdoc_html t))%nat eqn:El;
            cbn [files_of trace fst snd]
          | ]
        | ]
      | ]
    | ]
  | ].

Lemma process_file_frame f w g :
  g <> f -> files_of (snd (process_file f w)) g = files_of w g.
Proof.
  intros Hg. turn_cases f w; rewrite ?update_other by exact Hg; reflexivity.
Qed.

Lemma process_file_exists f w g :
  files_of (snd (process_file f w)) g = None <-> files_of w g = None.
Proof.
  turn_cases f w; try reflexivity;
    repeat (erewrite update_exists; [|first [eassumption|apply update_same]]);
    reflexivity.
Qed.

Lemma process_file_ok f w : fst (process_file f w) = Ok tt.
Proof. destruct (process_file_spec f w) as (w' & d & -> & _). reflexivity. Qed.

Lemma for_each_ok fs w : fst (for_each fs w) = Ok tt.
Proof. destruct (for_each_spec fs w) as (w' & d & -> & _). reflexivity. Qed.

Lemma for_each_cons f fs w :
  for_each (f :: fs) w = for_each fs (snd (process_file f w)).
Proof.
  cbn [for_each]. unfold bind. pose proof (process_file_ok f w) as H.
  destruct (process_file f w) as [r w1]. simpl in *. now rewrite H.
Qed.

(** X2: the run reads and writes only the files of its list, and neither
    creates nor deletes a file. *)
Theorem run_frame fs w g :
  (~ In g fs -> files_of (snd (run fs w)) g = files_of w g)
  /\ (files_of (snd (run fs w)) g = None <-> files_of w g = None).
Proof.
  assert (E : files_of (snd (run fs w)) = files_of (snd (for_each fs w))).
  { unfold run, bind. pose proof (for_each_ok fs w) as H.
    destruct (for_each fs w) as [r w1]. simpl in *. now rewrite H. }
  rewrite E. clear E. revert w. induction fs as [|f fs IH]; intros w.
  - simpl. tauto.
  - rewrite for_each_cons. destruct (IH (snd (process_file f w))) as [IH1 IH2].
    split.
    + intros Hn. rewrite IH1 by (intros H; apply Hn; now right).
      apply process_file_frame. intros ->. apply Hn. now left.
    + rewrite IH2. apply process_file_exists.
Qed.

(** X6: the run over a list is the run over its first part followed by the
    run over the rest. *)
Theorem for_each_app fs1 fs2 w :
  for_each (fs1 ++ fs2) w = for_each fs2 (snd (for_each fs1 w)).
Proof.
  revert w. induction fs1 as [|f fs1 IH]; intros w; [reflexivity|].
  simpl app. now rewrite !for_each_cons, IH.
Qed.

(** X1: a file that is there, readable, valid UTF-8 and writable, on a
    device that lets it hold the bytes of the sanitised text, ends up
    holding the sanitised text; the turn opens it for reading, opens it for
    writing, writes once and prints the success line, and leaves the other
    files alone. *)
Theorem process_file_success f w x t :
  files_of w f = Some x ->
  readable x = true ->
  body x = Decoded t ->
  writable x = true ->
  (forall k, room x = Some k -> (byte_length (fix_jsdoc_html t) <= k)%nat) ->
  exists w' y,
    process_file f w = (Ok tt, w')
    /\ files_of w' f = Some y
    /\ body y = Decoded (fix_jsdoc_html t)
    /\ readable y = true /\ writable y = true
    /\ (forall g, g <> f -> files_of w' g = files_of w g)
    /\ trace w' = trace w ++ [OpenR f; OpenW f; Wrote f (fix_jsdoc_html t);
                              Printed (Fixed f)].
Proof.
  intros Hf Hr Hb Hw Hk.
  unfold process_file, try_except, read_text, write_text,
    bind, emit, lookup, store, ret, raise.
  cbn [files_of trace]. rewrite Hf, Hr, Hb. cbn [files_of trace].
  rewrite Hf, Hw. cbn [files_of trace].
  destruct (room x) as [k|] eqn:Ek; cbn [files_of trace].
  - specialize (Hk k eq_refl). apply Nat.ltb_ge in Hk. rewrite Hk.
    cbn [files_of trace]. do 2 eexists. split; [reflexivity|].
    cbn [files_of trace]. rewrite update_same. split; [reflexivity|].
    repeat split; trivial.
    + intros g Hg. now rewrite !update_other.
    + now rewrite <- !app_assoc.
  - do 2 eexists. split; [reflexivity|].
    cbn [files_of trace]. rewrite update_same. split; [reflexivity|].
    repeat split; trivial.
    + intros g Hg. now rewrite !update_other.
    + now rewrite <- !app_assoc.
Qed.

(** X3: the success line is printed for a file only when the file has been
    read and now holds the sanitised text of what was read. *)
Theorem fixed_report_sound f w d :
  trace (snd (process_file f w)) = trace w ++ d ->
  In (Printed (Fixed f)) d ->
  exists x t y,
    files_of w f = Some x /\ body x = Decoded t
    /\ files_of (snd (process_file f w)) f = Some y
    /\ body y = Decoded (fix_jsdoc_html t).
Proof.
  turn_cases f w; rewrite <- ?app_assoc; intros E; apply app_inv_head in E;
    subst d; cbn [app In]; intros H;
    repeat (destruct H as [H|H]; [discriminate H|]); try contradiction.
  all: destruct H as [H|H]; [|repeat (destruct H as [H|H]; [discriminate H|]);
                               contradiction].
  all: do 3 eexists; rewrite update_same; repeat split; eauto.
Qed.

(** X4: a file that cannot be written is left as it is, nothing is written
    to it, and the turn ends on an error line for it. *)
Theorem write_denied_leaves_file f w x :
  files_of w f = Some x ->
  writable x = false ->
  (forall g, files_of (snd (process_file f w)) g = files_of w g)
  /\ exists e d,
      trace (snd (process_file f w))
      = trace w ++ d ++ [Printed (ErrorFixing f e)]
      /\ (forall t, ~ In (Wrote f t) d)
      /\ reports d = [].
Proof.
  intros Hf Hw. turn_cases f w; try congruence.
  all: injection Hf as <-; try congruence.
  all: split; [reflexivity|]; rewrite <- ?app_assoc.
  - exists PermissionError, [OpenR f; OpenW f]. repeat split.
    intros t0 [H|[H|[]]]; discriminate.
  - exists UnicodeDecodeError, [OpenR f]. repeat split.
    intros t0 [H|[]]; discriminate.
  - exists PermissionError, [OpenR f]. repeat split.
    intros t0 [H|[]]; discriminate.
Qed.

Lemma process_file_fixed f w x t :
  files_of w f = Some x ->
  readable x = true ->
  body x = Decoded t ->
  writable x = true ->
  (forall k, room x = Some k -> (byte_length (fix_jsdoc_html t) <= k)%nat) ->
  process_file f w
  = (Ok tt,
     mkworld
       (update (update (files_of w) f (mkfile (Decoded []) true true (room x))) f
          (mkfile (Decoded (fix_jsdoc_html t)) true true (room x)))
       ((((trace w ++ [OpenR f]) ++ [OpenW f]) ++ [Wrote f (fix_jsdoc_html t)])
          ++ [Printed (Fixed f)])).
Proof.
  intros Hf Hr Hb Hw Hk.
  unfold process_file, try_except, read_text, write_text,
    bind, emit, lookup, store, ret, raise.
  cbn [files_of trace]. rewrite Hf, Hr, Hb. cbn [files_of trace].
  rewrite Hf, Hw, Hr. cbn [files_of trace].
  destruct (room x) as [k|]; [|reflexivity].
  specialize (Hk k eq_refl). apply Nat.ltb_ge in Hk. now rewrite Hk.
Qed.

Lemma fix_twice t : fix_jsdoc_html (fix_jsdoc_html t) = fix_jsdoc_html t.
Proof.
  unfold fix_jsdoc_html at 1. unfold re_sub. rewrite re_scan_fix.
  unfold fix_jsdoc_html, re_sub. rewrite !flat_map_concat_map, map_map.
  f_equal. apply map_ext. intros [c|m]; simpl; trivial.
  apply process_comment_idem.
Qed.

(** X5: a second turn on a file the first turn fixed leaves every file as
    the first turn left it; it writes the same text again and prints the
    success line again.  The first turn fixes the file under the conditions
    of X1, and they are all the second turn needs. *)
Theorem process_file_twice f w x t :
  files_of w f = Some x ->
  readable x = true ->
  body x = Decoded t ->
  writable x = true ->
  (forall k, room x = Some k -> (byte_length (fix_jsdoc_html t) <= k)%nat) ->
  (forall g,
      files_of (snd (process_file f (snd (process_file f w)))) g
      = files_of (snd (process_file f w)) g)
  /\ trace (snd (process_file f (snd (process_file f w))))
     = trace (snd (process_file f w))
       ++ [OpenR f; OpenW f; Wrote f (fix_jsdoc_html t); Printed (Fixed f)].
Proof.
  intros Hf Hr Hb Hw Hk.
  rewrite (process_file_fixed f w x t Hf Hr Hb Hw Hk). cbn [snd].
  erewrite process_file_fixed;
    [|cbn [files_of]; apply update_same|reflexivity..
     |cbn [room]; rewrite fix_twice; exact Hk].
  cbn [snd files_of trace body room]. rewrite fix_twice.
  split.
  - intros g. unfold update. now destruct (String.eqb g f).
  - now rewrite <- !app_assoc.
Qed.

(** ** The sanitiser *)

(** X8: the two [replace] calls can be made in either order: neither entity
    holds the character the other call looks for. *)
Theorem replace_order s :
  replace 62 amp_gt (replace 60 amp_lt s)
  = replace 60 amp_lt (replace 62 amp_gt s).
Proof.
  induction s as [|c s IH]; [reflexivity|].
  rewrite !replace_cons, !replace_app, IH. f_equal.
  destruct (N.eqb_spec c 60) as [->|H60]; [reflexivity|].
  destruct (N.eqb_spec c 62) as [->|H62]; [reflexivity|].
  rewrite !replace_cons. apply N.eqb_neq in H60, H62. now rewrite H60, H62.
Qed.

Lemma contains_firstn_skipn g n s :
  contains g s = false ->
  contains g (firstn n s) = false /\ contains g (skipn n s) = false.
Proof.
  rewrite <- (firstn_skipn n s) at 1. rewrite contains_app.
  apply orb_false_elim.
Qed.

(** X7: content without any [<], or without any [>], is returned unchanged,
    whatever blocks it has. *)
Theorem no_brackets_unchanged content :
  contains 60 content = false \/ contains 62 content = false ->
  fix_jsdoc_html content = content.
Proof.
  intros H. unfold fix_jsdoc_html, re_sub.
  assert (Hb : forall b,
             contains 60 b = false \/ contains 62 b = false ->
             process_comment b = b).
  { intros b [Hb|Hb]; unfold process_comment; rewrite Hb;
      [reflexivity|now rewrite andb_false_r]. }
  revert H.
  apply (re_scan_ind' jsdoc_re (fun s ps =>
           contains 60 s = false \/ contains 62 s = false ->
           flat_map (render process_comment) ps = s)); clear content.
  - reflexivity.
  - intros c s n _ _ IH H. cbn [flat_map render].
    assert (H1 : contains 60 (c :: firstn n s) = false
                 \/ contains 62 (c :: firstn n s) = false).
    { destruct H as [H|H]; [left|right];
        apply (contains_firstn_skipn _ (S n) (c :: s) H). }
    assert (H2 : contains 60 (skipn n s) = false
                 \/ contains 62 (skipn n s) = false).
    { destruct H as [H|H]; [left|right];
        apply (contains_firstn_skipn _ (S n) (c :: s) H). }
    rewrite (Hb _ H1), (IH H2). simpl. now rewrite firstn_skipn.
  - intros c s _ IH H. cbn [flat_map render app]. f_equal. apply IH.
    destruct H as [H|H]; [left|right]; eapply contains_cons; exact H.
Qed.

(** X9: the empty comment [/**/] is not a block by itself: its [*/] shares
    the [*] of the opening, so the block runs on to the next [*/], and what
    lies between is sanitised as comment text. *)
Theorem empty_comment_runs_on body post :
  find_close body = None ->
  re_match jsdoc_re (str "/**/" ++ body) = None
  /\ blocks (str "/**/" ++ body ++ str "*/" ++ post)
     = (str "/**/" ++ body ++ str "*/") :: blocks post
  /\ fix_jsdoc_html (str "/**/" ++ body ++ str "*/" ++ post)
     = process_comment (str "/**/" ++ body ++ str "*/") ++ fix_jsdoc_html post.
Proof.
  intros Hb.
  assert (Hb' : find_close (47 :: body) = None)
    by (apply find_close_cons_None; now split).
  change (str "/**/") with [47; 42; 42; 47]. rewrite str_close. cbn [app].
  pose proof (re_scan_block (47 :: body) post Hb') as E. cbn [app] in E.
  split; [now rewrite jsdoc_match_open, Hb'|]. split.
  - unfold blocks. now rewrite E.
  - unfold fix_jsdoc_html, re_sub. now rewrite E.
Qed.

Lemma jsdoc_needs_slash : needs 47 (re_match jsdoc_re).
Proof.
  change jsdoc_re with
    ([(Chr 47, Once); (Chr 42, Once); (Chr 42, Once); (AnyChr, LazyStar);
      (Chr 42, Once)] ++ [(Chr 47, Once)]).
  apply needs_last.
Qed.

Lemma fix_prefix_plain pre s :
  contains 47 pre = false -> fix_jsdoc_html (pre ++ s) = pre ++ fix_jsdoc_html s.
Proof.
  unfold contains. induction pre as [|c pre IH]; [reflexivity|].
  cbn [existsb app]. intros H. apply orb_false_elim in H as [Hc Hp].
  rewrite fix_keep, (IH Hp); [reflexivity|].
  destruct (re_match jsdoc_re (c :: pre ++ s)) as [n|] eqn:E; trivial.
  apply jsdoc_match_head in E as (r & [= -> _]). discriminate.
Qed.

(** X10: text without [/] before and after a content takes no part in it:
    it is passed through, and the content between is sanitised as it would
    be alone. *)
Theorem fix_jsdoc_html_local pre s post :
  contains 47 pre = false ->
  contains 47 post = false ->
  fix_jsdoc_html (pre ++ s ++ post) = pre ++ fix_jsdoc_html s ++ post.
Proof.
  intros Hpre Hpost. rewrite (fix_prefix_plain pre _ Hpre). f_equal.
  unfold fix_jsdoc_html. apply (re_sub_app_needs 47); trivial.
  apply jsdoc_needs_slash.
Qed.

(** ** Instances *)

Lemma process_file_success_witness :
  let f := "b.js"%string in
  let x := mkfile (Decoded (str "/** a < b > c */")) true true (Some 40%nat) in
  let w := mkworld (update (fun _ => None) f x) [] in
  exists w' y,
    process_file f w = (Ok tt, w')
    /\ files_of w' f = Some y
    /\ body y = Decoded (fix_jsdoc_html (str "/** a < b > c */"))
    /\ readable y = true /\ writable y = true
    /\ (forall g, g <> f -> files_of w' g = files_of w g)
    /\ trace w' = trace w ++ [OpenR f; OpenW f;
                              Wrote f (fix_jsdoc_html (str "/** a < b > c */"));
                              Printed (Fixed f)].
Proof.
  intros f x w.
  apply (process_file_success f w x (str "/** a < b > c */"));
    try reflexivity.
  intros k [= <-]. vm_compute. lia.
Defined.

Lemma fixed_report_sound_witness :
  let f := "b.js"%string in
  let x := mkfile (Decoded (str "/** a < b > c */")) true true None in
  let w := mkworld (update (fun _ => None) f x) [] in
  exists x' t y,
    files_of w f = Some x' /\ body x' = Decoded t
    /\ files_of (snd (process_file f w)) f = Some y
    /\ body y = Decoded (fix_jsdoc_html t).
Proof.
  intros f x w.
  apply (fixed_report_sound f w
           [OpenR f; OpenW f; Wrote f (str "/** a &lt; b &gt; c */");
            Printed (Fixed f)]).
  - vm_compute. reflexivity.
  - simpl. auto.
Defined.

Lemma write_denied_leaves_file_witness :
  let f := "b.js"%string in
  let x := mkfile (Decoded (str "/** a < b > c */")) true false None in
  let w := mkworld (update (fun _ => None) f x) [] in
  (forall g, files_of (snd (process_file f w)) g = files_of w g)
  /\ exists e d,
      trace (snd (process_file f w))
      = trace w ++ d ++ [Printed (ErrorFixing f e)]
      /\ (forall t, ~ In (Wrote f t) d)
      /\ reports d = [].
Proof.
  intros f x w. apply (write_denied_leaves_file f w x); reflexivity.
Defined.

Lemma process_file_twice_witness :
  let f := "b.js"%string in
  let t := str "/** <b>x</b> a < b */" in
  let x := mkfile (Decoded t) true true (Some 64%nat) in
  let w := mkworld (update (fun _ => None) f x) [] in
  (forall g,
      files_of (snd (process_file f (snd (process_file f w)))) g
      = files_of (snd (process_file f w)) g)
  /\ trace (snd (process_file f (snd (process_file f w))))
     = trace (snd (process_file f w))
       ++ [OpenR f; OpenW f; Wrote f (fix_jsdoc_html t); Printed (Fixed f)].
Proof.
  intros f t x w. apply (process_file_twice f w x t); try reflexivity.
  intros k [= <-]. vm_compute. lia.
Defined.

Lemma no_brackets_unchanged_witness :
  fix_jsdoc_html (str "/** returns a -> b; see &lt;T&gt; */ f(a > b)")
  = str "/** returns a -> b; see &lt;T&gt; */ f(a > b)".
Proof.
  apply (no_brackets_unchanged
           (str "/** returns a -> b; see &lt;T&gt; */ f(a > b)")).
  left. vm_compute. reflexivity.
Defined.

Lemma empty_comment_runs_on_witness :
  let body := str " if (a < b && c > d) f(); /* note " in
  let post := str " g();" in
  re_match jsdoc_re (str "/**/" ++ body) = None
  /\ blocks (str "/**/" ++ body ++ str "*/" ++ post)
     = (str "/**/" ++ body ++ str "*/") :: blocks post
  /\ fix_jsdoc_html (str "/**/" ++ body ++ str "*/" ++ post)
     = process_comment (str "/**/" ++ body ++ str "*/") ++ fix_jsdoc_html post.
Proof.
  intros body post. apply (empty_comment_runs_on body post). reflexivity.
Defined.

Lemma fix_jsdoc_html_local_witness :
  fix_jsdoc_html (str "let a = 1;" ++ str "/** a < b > c */" ++ str " let b = 2;")
  = str "let a = 1;" ++ fix_jsdoc_html (str "/** a < b > c */") ++ str " let b = 2;".
Proof.
  apply (fix_jsdoc_html_local (str "let a = 1;") (str "/** a < b > c */")
           (str " let b = 2;")); vm_compute; reflexivity.
Defined.
